(** * A shallow embedding of the CLVM value codec of chia_rs (clvm-traits) and
    of the [Proof] client value of chia-wallet.

    Nodes of the arena are modelled as immutable trees (the arena is append-only
    and owns no mutable codec state, so a node handle is determined by the tree it
    denotes).  Atoms are byte strings, bytes are [Byte.byte]. *)

From Stdlib Require Import Ascii String ZArith Lia Bool List.
From Stdlib Require Import Strings.Byte.
Import ListNotations.
Open Scope Z_scope.
Set Warnings "-register-all".

(** ** Bytes *)

Definition bz (b : byte) : Z := Z.of_N (Byte.to_N b).

Definition zb (z : Z) : byte :=
  match Byte.of_N (Z.to_N (z mod 256)) with Some b => b | None => Byte.x00 end.

(** ** Nodes of the arena *)

Inductive node : Type :=
| Atom (bs : list byte)
| Pair (first rest : node).

Definition NIL : node := Atom [].

Definition is_nil (n : node) : bool :=
  match n with Atom [] => true | _ => false end.

(** The arena serializer of clvmr ([node_to_bytes]), an external collaborator,
    needed only to compare with the golden hex strings of the tests: a pair is
    [0xff] followed by both children; the empty atom is [0x80]; a one-byte atom
    [b <= 0x7f] is [b] itself; any other atom of length [< 0x40] is prefixed by
    [0x80 | len], of length [< 0x2000] by two bytes [0xc0 | len >> 8], [len & 0xff]. *)
Fixpoint node_to_bytes (n : node) : list Z :=
  match n with
  | Pair a b => 255 :: node_to_bytes a ++ node_to_bytes b
  | Atom bs =>
      let l := Z.of_nat (length bs) in
      let body := map bz bs in
      match bs with
      | [b] => if bz b <=? 127 then body else 129 :: body
      | _ =>
          if l <? 64 then (128 + l) :: body
          else (192 + l / 256) :: (l mod 256) :: body
      end
  end.

(** Lower-case hex of a byte string, as [hex::encode] prints it. *)
Definition hex_digit (d : Z) : ascii :=
  if d <? 10 then Ascii.ascii_of_nat (48 + Z.to_nat d)
  else Ascii.ascii_of_nat (87 + Z.to_nat d).

Fixpoint hex_encode (l : list Z) : string :=
  match l with
  | [] => EmptyString
  | b :: l' => String (hex_digit (b / 16)) (String (hex_digit (b mod 16)) (hex_encode l'))
  end.

(** ** Integers *)

(** Two's-complement reading of a big-endian atom; the empty atom is zero. *)
Definition be_value (bs : list byte) : Z :=
  fold_left (fun acc b => acc * 256 + bz b) bs 0.

Definition int_of_bytes (bs : list byte) : Z :=
  match bs with
  | [] => 0
  | b :: _ =>
      if 128 <=? bz b then be_value bs - 2 ^ (8 * Z.of_nat (length bs))
      else be_value bs
  end.

(** [k] big-endian bytes of [z], wrapping modulo [2^(8k)] (Rust's [to_be_bytes]). *)
Fixpoint be_bytes (k : nat) (z : Z) : list byte :=
  match k with
  | O => []
  | S k' => be_bytes k' (z / 256) ++ [zb z]
  end.

(** Removal of the redundant leading sign bytes: a [0x00] followed by a byte whose
    high bit is clear (or by nothing), a [0xff] followed by a byte whose high bit
    is set. *)
Fixpoint strip (bs : list byte) : list byte :=
  match bs with
  | [] => []
  | [b0] => if bz b0 =? 0 then [] else [b0]
  | b0 :: ((b1 :: _) as rest) =>
      if ((bz b0 =? 0) && (bz b1 <? 128)) || ((bz b0 =? 255) && (128 <=? bz b1))
      then strip rest else bs
  end.

(** Range of a fixed-width integer type ([signed], [bits]). *)
Definition in_range (signed : bool) (bits : nat) (z : Z) : bool :=
  if signed then (- 2 ^ (Z.of_nat bits - 1) <=? z) && (z <? 2 ^ (Z.of_nat bits - 1))
  else (0 <=? z) && (z <? 2 ^ Z.of_nat bits).

(** Modelled from the spec: the integer encoder of clvm-traits (to_clvm.rs, not in
    src/): "the minimal-length big-endian two's-complement atom ... redundant
    leading 0x00 or 0xff bytes are stripped; empty atom encodes integer zero".
    The value is written in one byte more than the type's width (room for the
    sign byte of an unsigned value with its high bit set), then stripped. *)
Definition encode_int (bits : nat) (z : Z) : list byte :=
  strip (be_bytes (S (bits / 8)) z).

(** No redundant leading sign byte: the shape [strip] leaves. *)
Definition canonical (bs : list byte) : bool :=
  match bs with
  | [] => true
  | [b] => negb (bz b =? 0)
  | b0 :: b1 :: _ =>
      negb (((bz b0 =? 0) && (bz b1 <? 128)) || ((bz b0 =? 255) && (128 <=? bz b1)))
  end.

(** ** Results and errors *)

Inductive result (A E : Type) : Type :=
| Ok (a : A)
| Err (e : E).
Arguments Ok {A E} a.
Arguments Err {A E} e.

Definition bind {A B E} (m : result A E) (k : A -> result B E) : result B E :=
  match m with Ok a => k a | Err e => Err e end.

Notation "x <- m ;; k" := (bind m (fun x => k)) (at level 61, m at next level, right associativity).

(** [FromClvmError] as listed in §7 of the spec. *)
Inductive from_clvm_error : Type :=
| ExpectedAtom
| ExpectedPair
| ExpectedNil
| WrongAtomLength
| WrongDiscriminant
| InvalidCurryForm
| NoMatchingVariant
| Custom (msg : string).

(** [ToClvmError]: in the embedding a value is untyped, and the only way for the
    encoder to fail is a value that does not inhabit the type it is encoded at
    (a value Rust's type system does not let exist). *)
Inductive to_clvm_error : Type :=
| IllTyped.

(** ** Types of the codec and their values *)

(** The representation tag of a struct or enum ([#[clvm(tuple)]], [#[clvm(list)]],
    [#[clvm(curry)]]). *)
Inductive repr : Type := Tuple | List | Curry.

(** The codec-supporting types: fixed-width integers ([signed], [bits]), byte
    strings, fixed-size byte arrays, booleans, [Option<T>], [Vec<T>], structs with
    their framing, tagged enums (the optional [#[repr(int)]] discriminant type,
    the enum's framing, and per variant its optional explicit discriminant, its
    optional framing override and its fields) and untagged enums. *)
Inductive ty : Type :=
| TInt (signed : bool) (bits : nat)
| TBytes
| TArray (n : nat)
| TBool
| TOption (t : ty)
| TSeq (t : ty)
| TStruct (r : repr) (fields : list ty)
| TTagged (disc_repr : option (bool * nat)) (r : repr)
          (variants : list (option Z * option repr * list ty))
| TUntagged (r : repr) (variants : list (option Z * option repr * list ty)).

Definition variant : Type := (option Z * option repr * list ty)%type.

Inductive value : Type :=
| VInt (z : Z)
| VBytes (bs : list byte)
| VBool (b : bool)
| VOption (o : option value)
| VSeq (vs : list value)
| VStruct (vs : list value)
| VEnum (index : nat) (vs : list value).

(** Default discriminant type [u8]. *)
Definition disc_type (d : option (bool * nat)) : bool * nat :=
  match d with Some p => p | None => (false, 8%nat) end.

(** Default discriminant: the 0-based position of the variant. *)
Definition variant_disc (k : nat) (d : option Z) : Z :=
  match d with Some z => z | None => Z.of_nat k end.

Definition repr_or (r : repr) (vr : option repr) : repr :=
  match vr with Some r' => r' | None => r end.

(** ** Representation strategies (§4.2) *)

Fixpoint tuple_frame (ns : list node) : node :=
  match ns with
  | [] => NIL
  | [n] => n
  | n :: ns' => Pair n (tuple_frame ns')
  end.

Fixpoint list_frame (ns : list node) : node :=
  match ns with
  | [] => NIL
  | n :: ns' => Pair n (list_frame ns')
  end.

(** The operators [c] (cons, opcode 4) and [q] (quote, opcode 1) and the
    environment reference [1]. *)
Definition op_c : node := Atom [Byte.x04].
Definition op_q : node := Atom [Byte.x01].
Definition env_one : node := Atom [Byte.x01].

(** Modelled from the spec: the curry framing of the derive macro (clvm-derive,
    not in src/), [(c (q . A) (c (q . B) (c (q . C) 1)))] as the crate
    documentation writes it (lib.rs:12): built right to left from the atom [1],
    each field wrapped as [pair(c, pair(pair(q, f), pair(acc, NIL)))]. *)
Fixpoint curry_frame (ns : list node) : node :=
  match ns with
  | [] => env_one
  | n :: ns' => Pair op_c (Pair (Pair op_q n) (Pair (curry_frame ns') NIL))
  end.

Definition frame (r : repr) (ns : list node) : node :=
  match r with
  | Tuple => tuple_frame ns
  | List => list_frame ns
  | Curry => curry_frame ns
  end.

(** ** Encoding *)

Section Encoders.
Variable enc : ty -> value -> result node to_clvm_error.

Fixpoint encode_fields (fs : list ty) (vs : list value) : result (list node) to_clvm_error :=
  match fs, vs with
  | [], [] => Ok []
  | f :: fs', v :: vs' => n <- enc f v ;; ns <- encode_fields fs' vs' ;; Ok (n :: ns)
  | _, _ => Err IllTyped
  end.

Fixpoint encode_elems (t : ty) (vs : list value) : result (list node) to_clvm_error :=
  match vs with
  | [] => Ok []
  | v :: vs' => n <- enc t v ;; ns <- encode_elems t vs' ;; Ok (n :: ns)
  end.

(** Tagged: [pair(discriminant_atom, payload)]; a zero-field variant's payload is
    nil.  [k] is the position of the head of [vars]. *)
Fixpoint encode_tagged (dbits : nat) (r : repr) (vars : list variant) (k i : nat)
    (vs : list value) : result node to_clvm_error :=
  match vars, i with
  | (d, vr, fs) :: _, O =>
      ns <- encode_fields fs vs ;;
      Ok (Pair (Atom (encode_int dbits (variant_disc k d)))
               (match fs with [] => NIL | _ => frame (repr_or r vr) ns end))
  | _ :: vars', S i' => encode_tagged dbits r vars' (S k) i' vs
  | [], _ => Err IllTyped
  end.

(** Untagged: the variant's own payload encoding. *)
Fixpoint encode_untagged (r : repr) (vars : list variant) (i : nat)
    (vs : list value) : result node to_clvm_error :=
  match vars, i with
  | (_, vr, fs) :: _, O => ns <- encode_fields fs vs ;; Ok (frame (repr_or r vr) ns)
  | _ :: vars', S i' => encode_untagged r vars' i' vs
  | [], _ => Err IllTyped
  end.
End Encoders.

(** Modelled from the spec: [ToClvm] of the primitive codecs (to_clvm.rs) and of
    the derived structs and enums (clvm-derive), neither in src/ (§4.1-4.3). *)
Fixpoint to_clvm (t : ty) (v : value) {struct t} : result node to_clvm_error :=
  match t, v with
  | TInt _ bits, VInt z => Ok (Atom (encode_int bits z))
  | TBytes, VBytes bs => Ok (Atom bs)
  | TArray _, VBytes bs => Ok (Atom bs)
  | TBool, VBool b => Ok (Atom (if b then [Byte.x01] else []))
  | TOption _, VOption None => Ok NIL
  | TOption t', VOption (Some v') => to_clvm t' v'
  | TSeq t', VSeq vs => ns <- encode_elems to_clvm t' vs ;; Ok (list_frame ns)
  | TStruct r fs, VStruct vs => ns <- encode_fields to_clvm fs vs ;; Ok (frame r ns)
  | TTagged d r vars, VEnum i vs => encode_tagged to_clvm (snd (disc_type d)) r vars 0 i vs
  | TUntagged r vars, VEnum i vs => encode_untagged to_clvm r vars i vs
  | _, _ => Err IllTyped
  end.

(** ** Decoding *)

(** Reading an atom through the arena ([atom_bytes]); a pair is a shape
    mismatch, [ExpectedAtom] (§7). *)
Definition atom_of (n : node) : result (list byte) from_clvm_error :=
  match n with Atom bs => Ok bs | Pair _ _ => Err ExpectedAtom end.

(** Modelled from the spec: the integer decoder (from_clvm.rs, not in src/):
    "decode fails with WrongAtomLength if the atom's minimal two's-complement value
    does not fit the target width". *)
Definition decode_int (signed : bool) (bits : nat) (n : node) : result Z from_clvm_error :=
  bs <- atom_of n ;;
  let z := int_of_bytes bs in
  if in_range signed bits z then Ok z else Err WrongAtomLength.

(** Modelled from the spec: the fixed-size byte array decoder ([[u8; N]]). *)
Definition decode_array (k : nat) (n : node) : result (list byte) from_clvm_error :=
  bs <- atom_of n ;;
  if Nat.eqb (length bs) k then Ok bs else Err WrongAtomLength.

(** Modelled from the spec: the boolean decoder, "decode accepts only these two
    exact atoms, else Custom error": the nil atom is [false], the atom [0x01] is
    [true], any other node a [Custom] error. *)
Definition decode_bool (n : node) : result bool from_clvm_error :=
  match n with
  | Atom [] => Ok false
  | Atom [b] => if Byte.eqb b Byte.x01 then Ok true
                else Err (Custom "expected boolean value of either `()` or `1`")
  | _ => Err (Custom "expected boolean value of either `()` or `1`")
  end.

Definition is_byte_atom (b : byte) (n : node) : bool :=
  match n with Atom [b'] => Byte.eqb b' b | _ => false end.

(** One curried cell [(c (q . a) rest)], i.e.
    [pair(c, pair(pair(q, a), pair(rest, NIL)))]. *)
Definition curry_cell (n : node) : option (node * node) :=
  match n with
  | Pair c (Pair (Pair q a) (Pair rest t)) =>
      if is_byte_atom Byte.x04 c && is_byte_atom Byte.x01 q && is_nil t
      then Some (a, rest) else None
  | _ => None
  end.

Section Decoders.
Variable dec : ty -> node -> result value from_clvm_error.

(** Tuple: pairs peeled for fields [1..n-1], the remainder is field [n]; no field
    is the nil atom. *)
Fixpoint untuple (fs : list ty) (n : node) : result (list value) from_clvm_error :=
  match fs with
  | [] => if is_nil n then Ok [] else Err ExpectedNil
  | [f] => v <- dec f n ;; Ok [v]
  | f :: fs' =>
      match n with
      | Pair a b => v <- dec f a ;; vs <- untuple fs' b ;; Ok (v :: vs)
      | Atom _ => Err ExpectedPair
      end
  end.

(** List: [n] pairs peeled, then the nil terminator. *)
Fixpoint unlist (fs : list ty) (n : node) : result (list value) from_clvm_error :=
  match fs with
  | [] => if is_nil n then Ok [] else Err ExpectedNil
  | f :: fs' =>
      match n with
      | Pair a b => v <- dec f a ;; vs <- unlist fs' b ;; Ok (v :: vs)
      | Atom _ => Err ExpectedPair
      end
  end.

(** Curry: one curried cell per field, then the atom [1]. *)
Fixpoint uncurry (fs : list ty) (n : node) : result (list value) from_clvm_error :=
  match fs with
  | [] => if is_byte_atom Byte.x01 n then Ok [] else Err InvalidCurryForm
  | f :: fs' =>
      match curry_cell n with
      | Some (a, rest) => v <- dec f a ;; vs <- uncurry fs' rest ;; Ok (v :: vs)
      | None => Err InvalidCurryForm
      end
  end.

Definition unframe (r : repr) (fs : list ty) (n : node) : result (list value) from_clvm_error :=
  match r with
  | Tuple => untuple fs n
  | List => unlist fs n
  | Curry => uncurry fs n
  end.

(** Tagged: the first variant whose discriminant is [z]; [WrongDiscriminant] when
    none.  A zero-field variant's payload is the nil atom. *)
Fixpoint decode_tagged (r : repr) (vars : list variant) (k : nat) (z : Z) (p : node)
    : result value from_clvm_error :=
  match vars with
  | [] => Err WrongDiscriminant
  | (d, vr, fs) :: vars' =>
      if variant_disc k d =? z then
        vs <- (match fs with
               | [] => if is_nil p then Ok [] else Err ExpectedNil
               | _ => unframe (repr_or r vr) fs p
               end) ;;
        Ok (VEnum k vs)
      else decode_tagged r vars' (S k) z p
  end.

(** Untagged: each variant tried in declaration order, the first success
    returned; when all fail the last variant's error, [NoMatchingVariant] when
    there is no variant. *)
Fixpoint decode_untagged (r : repr) (vars : list variant) (k : nat) (n : node)
    : result value from_clvm_error :=
  match vars with
  | [] => Err NoMatchingVariant
  | [(_, vr, fs)] => vs <- unframe (repr_or r vr) fs n ;; Ok (VEnum k vs)
  | (_, vr, fs) :: vars' =>
      match unframe (repr_or r vr) fs n with
      | Ok vs => Ok (VEnum k vs)
      | Err _ => decode_untagged r vars' (S k) n
      end
  end.
End Decoders.

Section Sequences.
Variable dec : node -> result value from_clvm_error.

(** [Vec<T>]: a proper list of elements. *)
Fixpoint decode_seq (n : node) : result (list value) from_clvm_error :=
  match n with
  | Atom [] => Ok []
  | Atom _ => Err ExpectedNil
  | Pair a b => v <- dec a ;; vs <- decode_seq b ;; Ok (v :: vs)
  end.
End Sequences.

(** Modelled from the spec: [FromClvm] of the primitive codecs (from_clvm.rs)
    and of the derived structs and enums (clvm-derive), neither in src/. *)
Fixpoint from_clvm (t : ty) (n : node) {struct t} : result value from_clvm_error :=
  match t with
  | TInt s bits => z <- decode_int s bits n ;; Ok (VInt z)
  | TBytes => bs <- atom_of n ;; Ok (VBytes bs)
  | TArray k => bs <- decode_array k n ;; Ok (VBytes bs)
  | TBool => b <- decode_bool n ;; Ok (VBool b)
  | TOption t' =>
      if is_nil n then Ok (VOption None) else v <- from_clvm t' n ;; Ok (VOption (Some v))
  | TSeq t' => vs <- decode_seq (from_clvm t') n ;; Ok (VSeq vs)
  | TStruct r fs => vs <- unframe from_clvm r fs n ;; Ok (VStruct vs)
  | TTagged d r vars =>
      match n with
      | Pair dn p =>
          z <- decode_int (fst (disc_type d)) (snd (disc_type d)) dn ;;
          decode_tagged from_clvm r vars 0 z p
      | Atom _ => Err ExpectedPair
      end
  | TUntagged r vars => decode_untagged from_clvm r vars 0 n
  end.

(** ** Well-typed values and well-formed types *)

Section Typing.
Variable wt : ty -> value -> bool.

Fixpoint typed_fields (fs : list ty) (vs : list value) : bool :=
  match fs, vs with
  | [], [] => true
  | f :: fs', v :: vs' => wt f v && typed_fields fs' vs'
  | _, _ => false
  end.

Fixpoint typed_variant (vars : list variant) (i : nat) (vs : list value) : bool :=
  match vars, i with
  | (_, _, fs) :: _, O => typed_fields fs vs
  | _ :: vars', S i' => typed_variant vars' i' vs
  | [], _ => false
  end.
End Typing.

(** [v] is a value of type [t]: integers in the range of their width, arrays of
    their declared length, enum values naming one of the variants. *)
Fixpoint well_typed (t : ty) (v : value) {struct t} : bool :=
  match t, v with
  | TInt s bits, VInt z => in_range s bits z
  | TBytes, VBytes _ => true
  | TArray k, VBytes bs => Nat.eqb (length bs) k
  | TBool, VBool _ => true
  | TOption _, VOption None => true
  | TOption t', VOption (Some v') => well_typed t' v'
  | TSeq t', VSeq vs => forallb (well_typed t') vs
  | TStruct _ fs, VStruct vs => typed_fields well_typed fs vs
  | TTagged _ _ vars, VEnum i vs => typed_variant well_typed vars i vs
  | TUntagged _ vars, VEnum i vs => typed_variant well_typed vars i vs
  | _, _ => false
  end.

Section AllFields.
Variable P : ty -> Prop.

Fixpoint all_fields (fs : list ty) : Prop :=
  match fs with [] => True | f :: fs' => P f /\ all_fields fs' end.

Fixpoint all_variants (vars : list variant) : Prop :=
  match vars with [] => True | (_, _, fs) :: vars' => all_fields fs /\ all_variants vars' end.
End AllFields.

Section AllFieldsb.
Variable p : ty -> bool.

Fixpoint all_variantsb (vars : list variant) : bool :=
  match vars with [] => true | (_, _, fs) :: vars' => forallb p fs && all_variantsb vars' end.
End AllFieldsb.

Fixpoint disc_list (k : nat) (vars : list variant) : list Z :=
  match vars with
  | [] => []
  | (d, _, _) :: vars' => variant_disc k d :: disc_list (S k) vars'
  end.

Fixpoint nodupb (l : list Z) : bool :=
  match l with
  | [] => true
  | z :: l' => negb (existsb (Z.eqb z) l') && nodupb l'
  end.

(** What Rust checks of a declaration at compile time: the discriminants of a
    tagged enum fit its discriminant type and are pairwise distinct. *)
Fixpoint wf_ty (t : ty) : bool :=
  match t with
  | TOption t' => wf_ty t'
  | TSeq t' => wf_ty t'
  | TStruct _ fs => forallb wf_ty fs
  | TTagged d _ vars =>
      forallb (in_range (fst (disc_type d)) (snd (disc_type d))) (disc_list 0 vars)
      && nodupb (disc_list 0 vars) && all_variantsb wf_ty vars
  | TUntagged _ vars => all_variantsb wf_ty vars
  | _ => true
  end.

(** Decoding with variant [j] alone fails on [n]. *)
Definition variant_rejects (r : repr) (vars : list variant) (j : nat) (n : node) : Prop :=
  match nth_error vars j with
  | Some (_, vr, fs) => exists e, unframe from_clvm (repr_or r vr) fs n = Err e
  | None => True
  end.

(** The types on which decoding inverts encoding: an [Option<T>] whose [T] never
    encodes a value to the nil atom, and an untagged enum in which no variant's
    decoder accepts the encoding of a later variant's value. *)
Fixpoint rt_ok (t : ty) : Prop :=
  match t with
  | TOption t' =>
      rt_ok t' /\ (forall v, well_typed t' v = true -> to_clvm t' v <> Ok NIL)
  | TSeq t' => rt_ok t'
  | TStruct _ fs => all_fields rt_ok fs
  | TTagged _ _ vars => all_variants rt_ok vars
  | TUntagged r vars =>
      all_variants rt_ok vars /\
      (forall i j vs n, (j < i)%nat -> typed_variant well_typed vars i vs = true ->
         encode_untagged to_clvm r vars i vs = Ok n -> variant_rejects r vars j n)
  | _ => True
  end.

(** The wrapping of a curried field as the sentence of the claim writes it,
    [pair(c, pair(pair(q, pair(f, NIL)), pair(acc, NIL)))] (a quoted proper list
    [(q f)] rather than [(q . f)]), for comparison with [curry_frame]. *)
Fixpoint curry_frame_claim (ns : list node) : node :=
  match ns with
  | [] => env_one
  | n :: ns' => Pair op_c (Pair (Pair op_q (Pair n NIL)) (Pair (curry_frame_claim ns') NIL))
  end.

(** ** The test types of lib.rs *)

Definition u64 : ty := TInt false 64.
Definition i32 : ty := TInt true 32.

(** [#[clvm(tuple)] struct TupleStruct { a: u64, b: i32 }] *)
Definition TupleStruct : ty := TStruct Tuple [u64; i32].
(** [#[clvm(list)] struct ListStruct { a: u64, b: i32 }] *)
Definition ListStruct : ty := TStruct List [u64; i32].
(** [#[clvm(curry)] struct CurryStruct { a: u64, b: i32 }] *)
Definition CurryStruct : ty := TStruct Curry [u64; i32].

(** [#[clvm(tuple)] enum Enum { A(i32), B { x: i32 }, C }] *)
Definition DefaultEnum : ty :=
  TTagged None Tuple [(None, None, [i32]); (None, None, [i32]); (None, None, [])].
(** [#[clvm(tuple)] #[repr(u8)] enum Enum { A(i32) = 42, B { x: i32 } = 34, C = 11 }] *)
Definition ExplicitEnum : ty :=
  TTagged (Some (false, 8%nat)) Tuple
    [(Some 42, None, [i32]); (Some 34, None, [i32]); (Some 11, None, [])].
(** [#[clvm(tuple, untagged)] enum Enum { A(i32), #[clvm(list)] B { x: i32, y: i32 },
    #[clvm(curry)] C { curried_value: String } }] (a [String] as its bytes) *)
Definition UntaggedEnum : ty :=
  TUntagged Tuple [(None, None, [i32]); (None, Some List, [i32; i32]);
                   (None, Some Curry, [TBytes])].

Definition hex_of (r : result node to_clvm_error) : string :=
  match r with Ok n => hex_encode (node_to_bytes n) | Err _ => EmptyString end.

(** ** The [Proof] client value (chia-wallet/src/proof.rs) *)

(** [#[clvm(list)] pub struct LineageProof { parent_coin_info: [u8; 32],
    inner_puzzle_hash: [u8; 32], amount: u64 }] *)
Record LineageProof : Type := {
  parent_coin_info : list byte;
  inner_puzzle_hash : list byte;
  amount : Z }.

(** [#[clvm(list)] pub struct EveProof { parent_coin_info: [u8; 32], amount: u64 }] *)
Record EveProof : Type := {
  eve_parent_coin_info : list byte;
  eve_amount : Z }.

(** [pub enum Proof { Lineage(LineageProof), Eve(EveProof) }] *)
Inductive Proof : Type :=
| Lineage (p : LineageProof)
| Eve (p : EveProof).

(** The Rust types' invariants: arrays of 32 bytes, an amount in [u64]. *)
Definition LineageProof_wf (p : LineageProof) : bool :=
  Nat.eqb (length (parent_coin_info p)) 32 && Nat.eqb (length (inner_puzzle_hash p)) 32
  && in_range false 64 (amount p).

Definition EveProof_wf (p : EveProof) : bool :=
  Nat.eqb (length (eve_parent_coin_info p)) 32 && in_range false 64 (eve_amount p).

Definition Proof_wf (p : Proof) : bool :=
  match p with Lineage l => LineageProof_wf l | Eve e => EveProof_wf e end.

(** Modelled from the spec: the derived [#[clvm(list)]] codecs of [LineageProof]
    and [EveProof] (clvm-derive, not in src/): the fields' own codecs
    ([[u8; 32]] an atom, [u64] an integer atom) framed as a proper list. *)
Definition LineageProof_to_clvm (p : LineageProof) : result node to_clvm_error :=
  Ok (list_frame [Atom (parent_coin_info p); Atom (inner_puzzle_hash p);
                  Atom (encode_int 64 (amount p))]).

Definition EveProof_to_clvm (p : EveProof) : result node to_clvm_error :=
  Ok (list_frame [Atom (eve_parent_coin_info p); Atom (encode_int 64 (eve_amount p))]).

Definition LineageProof_from_clvm (n : node) : result LineageProof from_clvm_error :=
  match n with
  | Pair a r1 =>
      pci <- decode_array 32 a ;;
      match r1 with
      | Pair b r2 =>
          iph <- decode_array 32 b ;;
          match r2 with
          | Pair c r3 =>
              amt <- decode_int false 64 c ;;
              if is_nil r3 then Ok {| parent_coin_info := pci; inner_puzzle_hash := iph;
                                      amount := amt |}
              else Err ExpectedNil
          | Atom _ => Err ExpectedPair
          end
      | Atom _ => Err ExpectedPair
      end
  | Atom _ => Err ExpectedPair
  end.

Definition EveProof_from_clvm (n : node) : result EveProof from_clvm_error :=
  match n with
  | Pair a r1 =>
      pci <- decode_array 32 a ;;
      match r1 with
      | Pair c r2 =>
          amt <- decode_int false 64 c ;;
          if is_nil r2 then Ok {| eve_parent_coin_info := pci; eve_amount := amt |}
          else Err ExpectedNil
      | Atom _ => Err ExpectedPair
      end
  | Atom _ => Err ExpectedPair
  end.

(** [impl FromClvm for Proof]: [LineageProof::from_clvm(f, ptr).map(Self::Lineage)
    .or_else(|_| EveProof::from_clvm(f, ptr).map(Self::Eve))]. *)
Definition Proof_from_clvm (n : node) : result Proof from_clvm_error :=
  match LineageProof_from_clvm n with
  | Ok l => Ok (Lineage l)
  | Err _ =>
      match EveProof_from_clvm n with
      | Ok e => Ok (Eve e)
      | Err err => Err err
      end
  end.

(** [impl ToClvm for Proof]: the variant's own encoding. *)
Definition Proof_to_clvm (p : Proof) : result node to_clvm_error :=
  match p with
  | Lineage l => LineageProof_to_clvm l
  | Eve e => EveProof_to_clvm e
  end.

(** ** Equality of values, as [#[derive(PartialEq)]] compares them *)

Fixpoint bytes_eqb (a b : list byte) : bool :=
  match a, b with
  | [], [] => true
  | x :: a', y :: b' => Byte.eqb x y && bytes_eqb a' b'
  | _, _ => false
  end.

Fixpoint value_eqb (a b : value) {struct a} : bool :=
  let fix values_eqb (xs ys : list value) : bool :=
    match xs, ys with
    | [], [] => true
    | x :: xs', y :: ys' => value_eqb x y && values_eqb xs' ys'
    | _, _ => false
    end in
  match a, b with
  | VInt x, VInt y => Z.eqb x y
  | VBytes x, VBytes y => bytes_eqb x y
  | VBool x, VBool y => Bool.eqb x y
  | VOption None, VOption None => true
  | VOption (Some x), VOption (Some y) => value_eqb x y
  | VSeq xs, VSeq ys => values_eqb xs ys
  | VStruct xs, VStruct ys => values_eqb xs ys
  | VEnum i xs, VEnum j ys => Nat.eqb i j && values_eqb xs ys
  | _, _ => false
  end.

Definition LineageProof_eqb (a b : LineageProof) : bool :=
  bytes_eqb (parent_coin_info a) (parent_coin_info b)
  && bytes_eqb (inner_puzzle_hash a) (inner_puzzle_hash b) && Z.eqb (amount a) (amount b).

Definition EveProof_eqb (a b : EveProof) : bool :=
  bytes_eqb (eve_parent_coin_info a) (eve_parent_coin_info b)
  && Z.eqb (eve_amount a) (eve_amount b).

Definition Proof_eqb (a b : Proof) : bool :=
  match a, b with
  | Lineage x, Lineage y => LineageProof_eqb x y
  | Eve x, Eve y => EveProof_eqb x y
  | _, _ => false
  end.

(** ** The test helper [check] and the tests of lib.rs *)

(** [fn check<T>(value: T, expected: &str)]: encode ([unwrap]), decode
    ([unwrap]), [assert_eq!(value, round_trip)], serialize with [node_to_bytes]
    ([unwrap]) and [assert_eq!(expected, hex::encode(bytes))].  [true] is a
    passing call, [false] a panic.  The serializer's own failure (an atom longer
    than clvmr's limit) cannot arise from the test values and is not modelled. *)
Definition check (t : ty) (value : value) (expected : string) : bool :=
  match to_clvm t value with
  | Err _ => false
  | Ok ptr =>
      match from_clvm t ptr with
      | Err _ => false
      | Ok round_trip =>
          value_eqb value round_trip && String.eqb expected (hex_encode (node_to_bytes ptr))
      end
  end.

(** A Rust [String] as its bytes (the strings of the tests are ASCII). *)
Definition str (s : string) : value := VBytes (list_byte_of_string s).

(** [#[clvm(tuple)] struct UnnamedStruct(String, String)] *)
Definition UnnamedStruct : ty := TStruct Tuple [TBytes; TBytes].
(** [#[clvm(tuple)] struct NewTypeStruct(String)] *)
Definition NewTypeStruct : ty := TStruct Tuple [TBytes].

Definition test_tuple : bool := check TupleStruct (VStruct [VInt 52; VInt (-32)]) "ff3481e0".
Definition test_list : bool := check ListStruct (VStruct [VInt 52; VInt (-32)]) "ff34ff81e080".
Definition test_curry : bool :=
  check CurryStruct (VStruct [VInt 52; VInt (-32)]) "ff04ffff0134ffff04ffff0181e0ff018080".
Definition test_unnamed : bool := check UnnamedStruct (VStruct [str "A"; str "B"]) "ff4142".
Definition test_newtype : bool := check NewTypeStruct (VStruct [str "XYZ"]) "8358595a".
Definition test_enum : bool :=
  check DefaultEnum (VEnum 0 [VInt 32]) "ff8020"
  && check DefaultEnum (VEnum 1 [VInt (-72)]) "ff0181b8"
  && check DefaultEnum (VEnum 2 []) "ff0280".
Definition test_explicit_enum : bool :=
  check ExplicitEnum (VEnum 0 [VInt 32]) "ff2a20"
  && check ExplicitEnum (VEnum 1 [VInt (-72)]) "ff2281b8"
  && check ExplicitEnum (VEnum 2 []) "ff0b80".
Definition test_untagged_enum : bool :=
  check UntaggedEnum (VEnum 0 [VInt 32]) "20"
  && check UntaggedEnum (VEnum 1 [VInt (-72); VInt 94]) "ff81b8ff5e80"
  && check UntaggedEnum (VEnum 2 [str "Hello"]) "ff04ffff018548656c6c6fff0180".

(** ** The fuzz target (chia-wallet/fuzz/fuzz_targets/roundtrip.rs) *)

(** [fn roundtrip<T>(u: &mut Unstructured)]: [T::arbitrary(u).unwrap()], encode
    ([unwrap]), decode ([unwrap]), [assert_eq!(obj, obj2)].  [Some u'] is a
    passing call leaving the input at [u'], [None] a panic. *)
Section Roundtrip.
Variables (T U E : Type).
Variable arbitrary : U -> result (T * U) E.
Variable to_clvm_T : T -> result node to_clvm_error.
Variable from_clvm_T : node -> result T from_clvm_error.
Variable eqb : T -> T -> bool.

Definition roundtrip (u : U) : option U :=
  match arbitrary u with
  | Err _ => None
  | Ok (obj, u') =>
      match to_clvm_T obj with
      | Err _ => None
      | Ok ptr =>
          match from_clvm_T ptr with
          | Err _ => None
          | Ok obj2 => if eqb obj obj2 then Some u' else None
          end
      end
  end.
End Roundtrip.

(** [impl Arbitrary for Proof]: [u.ratio(3, 10)?] chooses [Eve], then the fields
    are drawn in the order written, each draw propagating its error with [?].
    The draws of [Unstructured] (arbitrary crate) are parameters: [ratio], a
    [[u8; 32]] draw and a [u64] draw. *)
Section ProofArbitrary.
Variables (U E : Type).
Variable ratio : nat -> nat -> U -> result (bool * U) E.
Variable arbitrary_bytes32 : U -> result (list byte * U) E.
Variable arbitrary_u64 : U -> result (Z * U) E.

Definition Proof_arbitrary (u : U) : result (Proof * U) E :=
  r <- ratio 3 10 u ;;
  let '(is_eve, u1) := r in
  if is_eve then
    a <- arbitrary_bytes32 u1 ;; let '(pci, u2) := a in
    b <- arbitrary_u64 u2 ;; let '(amt, u3) := b in
    Ok (Eve {| eve_parent_coin_info := pci; eve_amount := amt |}, u3)
  else
    a <- arbitrary_bytes32 u1 ;; let '(pci, u2) := a in
    b <- arbitrary_bytes32 u2 ;; let '(iph, u3) := b in
    c <- arbitrary_u64 u3 ;; let '(amt, u4) := c in
    Ok (Lineage {| parent_coin_info := pci; inner_puzzle_hash := iph; amount := amt |}, u4).
End ProofArbitrary.

(** ** Induction over types *)

(** Structural induction on [ty] through its nested field lists. *)
Section TyInd.
Variable P : ty -> Prop.
Hypothesis HInt : forall s bits, P (TInt s bits).
Hypothesis HBytes : P TBytes.
Hypothesis HArray : forall k, P (TArray k).
Hypothesis HBool : P TBool.
Hypothesis HOption : forall t, P t -> P (TOption t).
Hypothesis HSeq : forall t, P t -> P (TSeq t).
Hypothesis HStruct : forall r fs, Forall P fs -> P (TStruct r fs).
Hypothesis HTagged : forall d r (vars : list variant),
  Forall (fun v : variant => Forall P (snd v)) vars -> P (TTagged d r vars).
Hypothesis HUntagged : forall r (vars : list variant),
  Forall (fun v : variant => Forall P (snd v)) vars -> P (TUntagged r vars).

Fixpoint ty_ind' (t : ty) : P t :=
  match t with
  | TInt s bits => HInt s bits
  | TBytes => HBytes
  | TArray k => HArray k
  | TBool => HBool
  | TOption t' => HOption t' (ty_ind' t')
  | TSeq t' => HSeq t' (ty_ind' t')
  | TStruct r fs =>
      HStruct r fs
        ((fix go (fs : list ty) : Forall P fs :=
            match fs with
            | [] => Forall_nil P
            | f :: fs' => Forall_cons f (ty_ind' f) (go fs')
            end) fs)
  | TTagged d r vars =>
      HTagged d r vars
        ((fix gov (vars : list variant) : Forall (fun v : variant => Forall P (snd v)) vars :=
            match vars with
            | [] => Forall_nil _
            | ((dv, vr, fs) as v) :: vars' =>
                Forall_cons v
                  ((fix go (fs : list ty) : Forall P fs :=
                      match fs with
                      | [] => Forall_nil P
                      | f :: fs' => Forall_cons f (ty_ind' f) (go fs')
                      end) fs)
                  (gov vars')
            end) vars)
  | TUntagged r vars =>
      HUntagged r vars
        ((fix gov (vars : list variant) : Forall (fun v : variant => Forall P (snd v)) vars :=
            match vars with
            | [] => Forall_nil _
            | ((dv, vr, fs) as v) :: vars' =>
                Forall_cons v
                  ((fix go (fs : list ty) : Forall P fs :=
                      match fs with
                      | [] => Forall_nil P
                      | f :: fs' => Forall_cons f (ty_ind' f) (go fs')
                      end) fs)
                  (gov vars')
            end) vars)
  end.
End TyInd.

(** [decodes dec fs ns vs]: field [i] of type [fs_i] decodes from node [ns_i] to
    value [vs_i]. *)
Fixpoint decodes (dec : ty -> node -> result value from_clvm_error)
    (fs : list ty) (ns : list node) (vs : list value) : Prop :=
  match fs, ns, vs with
  | [], [], [] => True
  | f :: fs', n :: ns', v :: vs' => dec f n = Ok v /\ decodes dec fs' ns' vs'
  | _, _, _ => False
  end.

(** Decoding inverts encoding on every value of [t]. *)
Definition roundtrips (t : ty) : Prop :=
  forall v, well_typed t v = true -> exists n, to_clvm t v = Ok n /\ from_clvm t n = Ok v.

(** * Proofs *)

(** ** Bytes and big-endian values *)

Lemma bz_range (b : byte) : 0 <= bz b < 256.
Proof. unfold bz. pose proof (Byte.to_N_bounded b). lia. Qed.

Lemma bz_zb (z : Z) : bz (zb z) = z mod 256.
Proof.
  unfold zb. pose proof (Z.mod_pos_bound z 256 ltac:(lia)).
  destruct (Byte.of_N (Z.to_N (z mod 256))) eqn:E.
  - apply Byte.to_of_N in E. unfold bz. rewrite E. lia.
  - apply Byte.of_N_None_iff in E. lia.
Qed.

Lemma zb_bz (b : byte) : zb (bz b) = b.
Proof.
  unfold zb, bz. rewrite Z.mod_small by (pose proof (bz_range b); unfold bz in *; lia).
  rewrite N2Z.id, Byte.of_to_N. reflexivity.
Qed.

Lemma bz_inj (a b : byte) : bz a = bz b -> a = b.
Proof. intros H. rewrite <- (zb_bz a), <- (zb_bz b), H. reflexivity. Qed.

Lemma pow8_S (n : nat) : 2 ^ (8 * Z.of_nat (S n)) = 256 * 2 ^ (8 * Z.of_nat n).
Proof.
  rewrite Nat2Z.inj_succ, Z.mul_succ_r, Z.pow_add_r by lia. lia.
Qed.

Lemma pow8_S_half (n : nat) : 2 ^ (8 * Z.of_nat (S n) - 1) = 128 * 2 ^ (8 * Z.of_nat n).
Proof.
  rewrite Nat2Z.inj_succ.
  replace (8 * Z.succ (Z.of_nat n) - 1) with (8 * Z.of_nat n + 7) by lia.
  rewrite Z.pow_add_r by lia. lia.
Qed.

Lemma pow8_pos (n : nat) : 0 < 2 ^ (8 * Z.of_nat n).
Proof. apply Z.pow_pos_nonneg; lia. Qed.

Lemma be_value_app1 (l : list byte) (b : byte) :
  be_value (l ++ [b]) = be_value l * 256 + bz b.
Proof. unfold be_value. rewrite fold_left_app. reflexivity. Qed.

Lemma be_value_range (l : list byte) : 0 <= be_value l < 2 ^ (8 * Z.of_nat (length l)).
Proof.
  induction l as [|b l IH] using rev_ind.
  - simpl. unfold be_value. simpl. lia.
  - rewrite be_value_app1, length_app, Nat.add_comm. simpl (length [b]).
    rewrite pow8_S. pose proof (bz_range b). lia.
Qed.

Lemma be_value_cons (b : byte) (l : list byte) :
  be_value (b :: l) = bz b * 2 ^ (8 * Z.of_nat (length l)) + be_value l.
Proof.
  induction l as [|c l IH] using rev_ind.
  - unfold be_value. simpl. lia.
  - rewrite app_comm_cons, !be_value_app1, IH, length_app, Nat.add_comm.
    simpl (length [c]). rewrite pow8_S. ring.
Qed.

Lemma be_bytes_length (k : nat) (z : Z) : length (be_bytes k z) = k.
Proof.
  revert z. induction k as [|k IH]; intros z; simpl; [reflexivity|].
  rewrite length_app, IH. simpl. lia.
Qed.

Lemma be_value_be_bytes (k : nat) (z : Z) :
  be_value (be_bytes k z) = z mod 2 ^ (8 * Z.of_nat k).
Proof.
  revert z. induction k as [|k IH]; intros z.
  - simpl. unfold be_value. simpl. rewrite Z.mod_1_r. reflexivity.
  - simpl be_bytes. rewrite be_value_app1, IH, bz_zb, pow8_S.
    pose proof (pow8_pos k).
    rewrite !Z.mod_eq by lia. rewrite <- Z.div_div by lia. ring.
Qed.

(** ** Two's-complement reading *)

Lemma int_of_bytes_cons (b : byte) (l : list byte) :
  int_of_bytes (b :: l) =
  bz b * 2 ^ (8 * Z.of_nat (length l)) + be_value l
  - (if 128 <=? bz b then 256 * 2 ^ (8 * Z.of_nat (length l)) else 0).
Proof.
  unfold int_of_bytes. rewrite be_value_cons.
  change (length (b :: l)) with (S (length l)). rewrite pow8_S.
  destruct (128 <=? bz b); lia.
Qed.

Lemma int_of_bytes_range (l : list byte) :
  (1 <= length l)%nat ->
  - 2 ^ (8 * Z.of_nat (length l) - 1) <= int_of_bytes l < 2 ^ (8 * Z.of_nat (length l) - 1).
Proof.
  destruct l as [|b r]; simpl length; intros H; [lia|].
  rewrite int_of_bytes_cons, pow8_S_half.
  pose proof (be_value_range r). pose proof (bz_range b). pose proof (pow8_pos (length r)).
  set (X := 2 ^ (8 * Z.of_nat (length r))) in *.
  destruct (128 <=? bz b) eqn:E; [apply Z.leb_le in E | apply Z.leb_gt in E]; nia.
Qed.

Lemma int_of_bytes_mod (l : list byte) :
  exists c, int_of_bytes l = be_value l - c * 2 ^ (8 * Z.of_nat (length l)).
Proof.
  destruct l as [|b r].
  - exists 0. reflexivity.
  - unfold int_of_bytes. destruct (128 <=? bz b); [exists 1 | exists 0]; lia.
Qed.

Lemma int_of_bytes_be_bytes (k : nat) (z : Z) :
  (1 <= k)%nat -> - 2 ^ (8 * Z.of_nat k - 1) <= z < 2 ^ (8 * Z.of_nat k - 1) ->
  int_of_bytes (be_bytes k z) = z.
Proof.
  intros Hk Hz.
  pose proof (int_of_bytes_range (be_bytes k z)) as Hr.
  rewrite be_bytes_length in Hr. specialize (Hr Hk).
  destruct (int_of_bytes_mod (be_bytes k z)) as [c Hc].
  rewrite be_bytes_length, be_value_be_bytes in Hc.
  destruct k as [|k]; [lia|].
  rewrite pow8_S_half in Hr, Hz. rewrite pow8_S in Hc.
  pose proof (pow8_pos k).
  set (X := 2 ^ (8 * Z.of_nat k)) in *.
  rewrite Z.mod_eq in Hc by lia.
  set (q := z / (256 * X)) in *.
  assert (q + c = 0) by nia. nia.
Qed.

Lemma int_of_bytes_strip (l : list byte) : int_of_bytes (strip l) = int_of_bytes l.
Proof.
  induction l as [|b0 l IH]; [reflexivity|].
  destruct l as [|b1 r].
  - simpl strip. destruct (bz b0 =? 0) eqn:E; [|reflexivity].
    apply Z.eqb_eq in E. rewrite int_of_bytes_cons, E. simpl. reflexivity.
  - change (strip (b0 :: b1 :: r)) with
      (if ((bz b0 =? 0) && (bz b1 <? 128)) || ((bz b0 =? 255) && (128 <=? bz b1))
       then strip (b1 :: r) else b0 :: b1 :: r).
    destruct (((bz b0 =? 0) && (bz b1 <? 128)) || ((bz b0 =? 255) && (128 <=? bz b1))) eqn:E;
      [|reflexivity].
    rewrite IH, !int_of_bytes_cons, be_value_cons.
    change (length (b1 :: r)) with (S (length r)). rewrite pow8_S.
    set (X := 2 ^ (8 * Z.of_nat (length r))).
    apply orb_true_iff in E.
    destruct E as [E | E]; apply andb_true_iff in E; destruct E as [E1 E2];
      apply Z.eqb_eq in E1; rewrite E1.
    + apply Z.ltb_lt in E2. destruct (128 <=? bz b1) eqn:E3; [apply Z.leb_le in E3; lia|].
      simpl. lia.
    + rewrite E2. replace (128 <=? 255) with true by reflexivity. ring.
Qed.

(** ** Minimal integer encoding *)

Lemma encode_int_fits (signed : bool) (bits : nat) (z : Z) :
  in_range signed bits z = true ->
  - 2 ^ (8 * Z.of_nat (S (bits / 8)) - 1) <= z < 2 ^ (8 * Z.of_nat (S (bits / 8)) - 1).
Proof.
  intros H. rewrite pow8_S_half.
  assert (Hb : Z.of_nat bits <= 8 * Z.of_nat (bits / 8) + 7).
  { pose proof (Nat.div_mod bits 8 ltac:(lia)). pose proof (Nat.mod_upper_bound bits 8 ltac:(lia)).
    lia. }
  assert (Hp : 2 ^ (Z.of_nat bits) <= 2 ^ (8 * Z.of_nat (bits / 8) + 7))
    by (apply Z.pow_le_mono_r; lia).
  assert (Hp' : 2 ^ (Z.of_nat bits - 1) <= 2 ^ (8 * Z.of_nat (bits / 8) + 7))
    by (apply Z.pow_le_mono_r; lia).
  rewrite Z.pow_add_r in Hp, Hp' by lia.
  pose proof (Z.pow_nonneg 2 (Z.of_nat bits - 1) ltac:(lia)).
  destruct signed; simpl in H; apply andb_true_iff in H; destruct H as [H1 H2];
    [apply Z.leb_le in H1 | apply Z.leb_le in H1]; apply Z.ltb_lt in H2;
    change (2 ^ 7) with 128 in *; lia.
Qed.

Lemma int_of_bytes_encode_int (signed : bool) (bits : nat) (z : Z) :
  in_range signed bits z = true -> int_of_bytes (encode_int bits z) = z.
Proof.
  intros H. unfold encode_int. rewrite int_of_bytes_strip.
  apply int_of_bytes_be_bytes; [lia | apply (encode_int_fits signed); exact H].
Qed.

Lemma decode_encode_int (signed : bool) (bits : nat) (z : Z) :
  in_range signed bits z = true -> decode_int signed bits (Atom (encode_int bits z)) = Ok z.
Proof.
  intros H. unfold decode_int. simpl.
  rewrite (int_of_bytes_encode_int signed bits z H), H. reflexivity.
Qed.

Lemma strip_canonical (l : list byte) : canonical (strip l) = true.
Proof.
  induction l as [|b0 l IH]; [reflexivity|].
  destruct l as [|b1 r].
  - simpl. destruct (bz b0 =? 0) eqn:E; simpl; [reflexivity|]. rewrite E. reflexivity.
  - change (strip (b0 :: b1 :: r)) with
      (if ((bz b0 =? 0) && (bz b1 <? 128)) || ((bz b0 =? 255) && (128 <=? bz b1))
       then strip (b1 :: r) else b0 :: b1 :: r).
    destruct (((bz b0 =? 0) && (bz b1 <? 128)) || ((bz b0 =? 255) && (128 <=? bz b1))) eqn:E.
    + exact IH.
    + simpl. rewrite E. reflexivity.
Qed.

Lemma canonical_far (l : list byte) :
  canonical l = true -> (2 <= length l)%nat ->
  int_of_bytes l < - 2 ^ (8 * Z.of_nat (length l - 1) - 1) \/
  2 ^ (8 * Z.of_nat (length l - 1) - 1) <= int_of_bytes l.
Proof.
  destruct l as [|b0 [|b1 r]]; simpl length; intros Hc Hl; try lia.
  replace (S (S (length r)) - 1)%nat with (S (length r)) by lia.
  rewrite pow8_S_half, int_of_bytes_cons, be_value_cons.
  change (length (b1 :: r)) with (S (length r)). rewrite pow8_S.
  pose proof (be_value_range r) as HY. pose proof (bz_range b0) as HB0.
  pose proof (bz_range b1) as HB1. pose proof (pow8_pos (length r)) as HX.
  set (X := 2 ^ (8 * Z.of_nat (length r))) in *.
  set (Y := be_value r) in *.
  simpl in Hc. apply negb_true_iff in Hc. apply orb_false_iff in Hc. destruct Hc as [Hc1 Hc2].
  apply andb_false_iff in Hc1. apply andb_false_iff in Hc2.
  rewrite Z.eqb_neq, Z.ltb_ge in Hc1. rewrite Z.eqb_neq, Z.leb_gt in Hc2.
  destruct (128 <=? bz b0) eqn:E; [apply Z.leb_le in E | apply Z.leb_gt in E].
  - left. assert (bz b0 = 255 \/ bz b0 <= 254) as [H0 | H0] by lia.
    + destruct Hc2 as [Hc2 | Hc2]; [lia|]. rewrite H0. nia.
    + nia.
  - right. assert (bz b0 = 0 \/ 1 <= bz b0) as [H0 | H0] by lia.
    + destruct Hc1 as [Hc1 | Hc1]; [lia|]. rewrite H0. nia.
    + nia.
Qed.

Lemma canonical_single (b : byte) : canonical [b] = true -> int_of_bytes [b] <> 0.
Proof.
  intros Hc. simpl in Hc. apply negb_true_iff, Z.eqb_neq in Hc.
  rewrite int_of_bytes_cons. simpl. pose proof (bz_range b). unfold be_value. simpl.
  destruct (128 <=? bz b) eqn:E; [apply Z.leb_le in E | apply Z.leb_gt in E]; lia.
Qed.

Lemma canonical_minimal (e l : list byte) :
  canonical e = true -> int_of_bytes l = int_of_bytes e -> (length e <= length l)%nat.
Proof.
  intros Hc Hv. destruct (le_lt_dec (length e) (length l)) as [|Hlt]; [assumption|]. exfalso.
  destruct (Nat.eq_dec (length e) 1) as [H1 | H1].
  - destruct e as [|b [|b' e']]; simpl in H1; try lia.
    destruct l; simpl in Hlt; [|lia].
    apply (canonical_single b Hc). rewrite <- Hv. reflexivity.
  - assert (H2 : (2 <= length e)%nat) by lia.
    destruct (canonical_far e Hc H2) as [Hf | Hf];
    (destruct (Nat.eq_dec (length l) 0) as [H0 | H0];
     [ destruct l; [|simpl in H0; lia]; simpl in Hv;
       assert (0 < 2 ^ (8 * Z.of_nat (length e - 1) - 1)) by (apply Z.pow_pos_nonneg; lia);
       lia
     | pose proof (int_of_bytes_range l ltac:(lia));
       assert (2 ^ (8 * Z.of_nat (length l) - 1) <= 2 ^ (8 * Z.of_nat (length e - 1) - 1))
         by (apply Z.pow_le_mono_r; lia);
       lia ]).
Qed.

Lemma encode_int_canonical (bits : nat) (z : Z) : canonical (encode_int bits z) = true.
Proof. apply strip_canonical. Qed.

(** ** Framing strategies invert *)

Section Framing.
Variable dec : ty -> node -> result value from_clvm_error.

Lemma decodes_length (fs : list ty) (ns : list node) (vs : list value) :
  decodes dec fs ns vs -> length ns = length fs /\ length vs = length fs.
Proof.
  revert ns vs. induction fs as [|f fs IH]; intros [|n ns] [|v vs]; simpl; try tauto.
  intros [_ H]. destruct (IH ns vs H). lia.
Qed.

Lemma untuple_frame (fs : list ty) (ns : list node) (vs : list value) :
  decodes dec fs ns vs -> untuple dec fs (tuple_frame ns) = Ok vs.
Proof.
  revert ns vs. induction fs as [|f fs IH]; intros [|n ns] [|v vs]; simpl; try tauto.
  intros [Hf Hr]. destruct fs as [|f2 fs'].
  - destruct ns, vs; simpl in Hr; try tauto. simpl. rewrite Hf. reflexivity.
  - destruct ns as [|n2 ns'], vs as [|v2 vs']; simpl in Hr; try tauto.
    change (tuple_frame (n :: n2 :: ns')) with (Pair n (tuple_frame (n2 :: ns'))).
    change (untuple dec (f :: f2 :: fs') (Pair n (tuple_frame (n2 :: ns'))))
      with (v0 <- dec f n ;; vs0 <- untuple dec (f2 :: fs') (tuple_frame (n2 :: ns')) ;;
            Ok (v0 :: vs0)).
    rewrite Hf. cbn [bind]. rewrite (IH (n2 :: ns') (v2 :: vs')) by (simpl; exact Hr).
    reflexivity.
Qed.

Lemma unlist_frame (fs : list ty) (ns : list node) (vs : list value) :
  decodes dec fs ns vs -> unlist dec fs (list_frame ns) = Ok vs.
Proof.
  revert ns vs. induction fs as [|f fs IH]; intros [|n ns] [|v vs]; simpl; try tauto.
  intros [Hf Hr]. rewrite Hf. simpl. rewrite (IH ns vs Hr). reflexivity.
Qed.

Lemma uncurry_frame (fs : list ty) (ns : list node) (vs : list value) :
  decodes dec fs ns vs -> uncurry dec fs (curry_frame ns) = Ok vs.
Proof.
  revert ns vs. induction fs as [|f fs IH]; intros [|n ns] [|v vs]; simpl; try tauto.
  intros [Hf Hr]. rewrite Hf. simpl. rewrite (IH ns vs Hr). reflexivity.
Qed.

Lemma unframe_frame (r : repr) (fs : list ty) (ns : list node) (vs : list value) :
  decodes dec fs ns vs -> unframe dec r fs (frame r ns) = Ok vs.
Proof.
  destruct r; simpl; [apply untuple_frame | apply unlist_frame | apply uncurry_frame].
Qed.

(** A proper list of the wrong length is rejected by the [List] framing. *)
Lemma unlist_wrong_length (fs : list ty) (ns : list node) :
  length ns <> length fs -> exists e, unlist dec fs (list_frame ns) = Err e.
Proof.
  revert ns. induction fs as [|f fs IH]; intros [|n ns] Hl; simpl in *; try lia.
  - eexists. reflexivity.
  - eexists. reflexivity.
  - destruct (dec f n) as [v|e]; simpl; [|eexists; reflexivity].
    destruct (IH ns ltac:(lia)) as [e He]. rewrite He. eexists. reflexivity.
Qed.

Lemma decode_untagged_cons (r : repr) (d : option Z) (vr : option repr) (fs : list ty)
    (vars : list variant) (k : nat) (n : node) :
  decode_untagged dec r ((d, vr, fs) :: vars) k n =
  match unframe dec (repr_or r vr) fs n with
  | Ok vs => Ok (VEnum k vs)
  | Err e => match vars with [] => Err e | _ => decode_untagged dec r vars (S k) n end
  end.
Proof. destruct vars; simpl; destruct (unframe dec (repr_or r vr) fs n); reflexivity. Qed.

(** Untagged decoding: if every variant before [i] rejects [n] and variant [i]
    accepts it, the trial returns variant [i]. *)
Lemma decode_untagged_first (r : repr) (vars : list variant) (k i : nat) (n : node)
    (vs : list value) (d : option Z) (vr : option repr) (fs : list ty) :
  (forall j d' vr' fs', (j < i)%nat -> nth_error vars j = Some (d', vr', fs') ->
     exists e, unframe dec (repr_or r vr') fs' n = Err e) ->
  nth_error vars i = Some (d, vr, fs) ->
  unframe dec (repr_or r vr) fs n = Ok vs ->
  decode_untagged dec r vars k n = Ok (VEnum (k + i) vs).
Proof.
  revert k i. induction vars as [|[[d0 vr0] fs0] vars IH]; intros k i Hrej Hnth Hacc.
  - destruct i; discriminate.
  - rewrite decode_untagged_cons. destruct i as [|i].
    + simpl in Hnth. injection Hnth as -> -> ->. rewrite Hacc, Nat.add_0_r. reflexivity.
    + destruct (Hrej 0%nat d0 vr0 fs0 ltac:(lia) eq_refl) as [e He]. rewrite He.
      simpl in Hnth. destruct vars as [|v vars']; [destruct i; discriminate|].
      rewrite (IH (S k) i); [f_equal; f_equal; lia | | exact Hnth | exact Hacc].
      intros j d' vr' fs' Hj Hj'. apply (Hrej (S j) d' vr' fs'); [lia | exact Hj'].
Qed.
End Framing.

(** ** Encoding is total on well-typed values *)

Lemma encode_tagged_nth (enc : ty -> value -> result node to_clvm_error) (dbits : nat)
    (r : repr) (vars : list variant) (k i : nat) (vs : list value)
    (d : option Z) (vr : option repr) (fs : list ty) :
  nth_error vars i = Some (d, vr, fs) ->
  encode_tagged enc dbits r vars k i vs =
  (ns <- encode_fields enc fs vs ;;
   Ok (Pair (Atom (encode_int dbits (variant_disc (k + i) d)))
            (match fs with [] => NIL | _ => frame (repr_or r vr) ns end))).
Proof.
  revert k i. induction vars as [|[[d0 vr0] fs0] vars IH]; intros k [|i] H; try discriminate.
  - simpl in H. injection H as -> -> ->. simpl. rewrite Nat.add_0_r. reflexivity.
  - simpl in H. simpl. rewrite (IH (S k) i H). replace (S k + i)%nat with (k + S i)%nat by lia. reflexivity.
Qed.

Lemma encode_untagged_nth (enc : ty -> value -> result node to_clvm_error)
    (r : repr) (vars : list variant) (i : nat) (vs : list value)
    (d : option Z) (vr : option repr) (fs : list ty) :
  nth_error vars i = Some (d, vr, fs) ->
  encode_untagged enc r vars i vs = (ns <- encode_fields enc fs vs ;; Ok (frame (repr_or r vr) ns)).
Proof.
  revert i. induction vars as [|[[d0 vr0] fs0] vars IH]; intros [|i] H; try discriminate.
  - simpl in H. injection H as -> -> ->. reflexivity.
  - simpl in H. simpl. exact (IH i H).
Qed.

Lemma typed_variant_nth (wt : ty -> value -> bool) (vars : list variant) (i : nat) (vs : list value) :
  typed_variant wt vars i vs = true ->
  exists d vr fs, nth_error vars i = Some (d, vr, fs) /\ typed_fields wt fs vs = true.
Proof.
  revert i. induction vars as [|[[d0 vr0] fs0] vars IH]; intros [|i] H; try discriminate.
  - exists d0, vr0, fs0. split; [reflexivity | exact H].
  - exact (IH i H).
Qed.

Lemma Forall_variant_nth (P : ty -> Prop) (vars : list variant) (i : nat)
    (d : option Z) (vr : option repr) (fs : list ty) :
  Forall (fun v : variant => Forall P (snd v)) vars -> nth_error vars i = Some (d, vr, fs) ->
  Forall P fs.
Proof.
  intros H Hn. apply nth_error_In in Hn. rewrite Forall_forall in H. exact (H _ Hn).
Qed.

Lemma encode_fields_total (fs : list ty) (vs : list value) :
  Forall (fun f => forall v, well_typed f v = true -> exists n, to_clvm f v = Ok n) fs ->
  typed_fields well_typed fs vs = true -> exists ns, encode_fields to_clvm fs vs = Ok ns.
Proof.
  revert vs. induction fs as [|f fs IH]; intros [|v vs] HF Ht; simpl in *; try discriminate.
  - exists []. reflexivity.
  - inversion HF as [|? ? Hf HF']; subst. apply andb_true_iff in Ht. destruct Ht as [Ht1 Ht2].
    destruct (Hf v Ht1) as [n Hn]. destruct (IH vs HF' Ht2) as [ns Hns].
    rewrite Hn, Hns. exists (n :: ns). reflexivity.
Qed.

Lemma encode_elems_total (t : ty) (vs : list value) :
  (forall v, well_typed t v = true -> exists n, to_clvm t v = Ok n) ->
  forallb (well_typed t) vs = true -> exists ns, encode_elems to_clvm t vs = Ok ns.
Proof.
  intros Ht. induction vs as [|v vs IH]; intros H; simpl in *.
  - exists []. reflexivity.
  - apply andb_true_iff in H. destruct H as [H1 H2].
    destruct (Ht v H1) as [n Hn]. destruct (IH H2) as [ns Hns].
    rewrite Hn, Hns. exists (n :: ns). reflexivity.
Qed.

Lemma to_clvm_total_ty (t : ty) :
  forall v, well_typed t v = true -> exists n, to_clvm t v = Ok n.
Proof.
  induction t as [s bits | | k | | t IH | t IH | r fs IH | d r vars IH | r vars IH]
    using ty_ind'; intros v Hv; destruct v; simpl in Hv; try discriminate; simpl;
    try (eexists; reflexivity).
  - destruct o as [v|]; [exact (IH v Hv) | eexists; reflexivity].
  - destruct (encode_elems_total t vs IH Hv) as [ns Hns]. rewrite Hns. eexists. reflexivity.
  - destruct (encode_fields_total fs vs IH Hv) as [ns Hns]. rewrite Hns. eexists. reflexivity.
  - destruct (typed_variant_nth _ vars index vs Hv) as (dv & vr & fs & Hn & Hf).
    rewrite (encode_tagged_nth _ _ r vars 0 index vs dv vr fs Hn).
    destruct (encode_fields_total fs vs (Forall_variant_nth _ _ _ _ _ _ IH Hn) Hf) as [ns Hns].
    rewrite Hns. eexists. reflexivity.
  - destruct (typed_variant_nth _ vars index vs Hv) as (dv & vr & fs & Hn & Hf).
    rewrite (encode_untagged_nth _ r vars index vs dv vr fs Hn).
    destruct (encode_fields_total fs vs (Forall_variant_nth _ _ _ _ _ _ IH Hn) Hf) as [ns Hns].
    rewrite Hns. eexists. reflexivity.
Qed.

(** ** Decoding inverts encoding *)

Lemma fields_roundtrip (fs : list ty) (vs : list value) :
  Forall roundtrips fs -> typed_fields well_typed fs vs = true ->
  exists ns, encode_fields to_clvm fs vs = Ok ns /\ decodes from_clvm fs ns vs.
Proof.
  revert vs. induction fs as [|f fs IH]; intros [|v vs] HF Ht; simpl in *; try discriminate.
  - exists []. split; [reflexivity | exact I].
  - inversion HF as [|? ? Hf HF']; subst. apply andb_true_iff in Ht. destruct Ht as [Ht1 Ht2].
    destruct (Hf v Ht1) as [n [Hn Hd]]. destruct (IH vs HF' Ht2) as [ns [Hns Hds]].
    rewrite Hn, Hns. exists (n :: ns). split; [reflexivity | simpl; tauto].
Qed.

Lemma elems_roundtrip (t : ty) (vs : list value) :
  roundtrips t -> forallb (well_typed t) vs = true ->
  exists ns, encode_elems to_clvm t vs = Ok ns /\ decode_seq (from_clvm t) (list_frame ns) = Ok vs.
Proof.
  intros Ht. induction vs as [|v vs IH]; intros H; simpl in *.
  - exists []. split; reflexivity.
  - apply andb_true_iff in H. destruct H as [H1 H2].
    destruct (Ht v H1) as [n [Hn Hd]]. destruct (IH H2) as [ns [Hns Hds]].
    rewrite Hn, Hns. exists (n :: ns). split; [reflexivity|]. simpl. rewrite Hd, Hds. reflexivity.
Qed.

Lemma disc_list_nth (vars : list variant) (k i : nat) (d : option Z) (vr : option repr)
    (fs : list ty) :
  nth_error vars i = Some (d, vr, fs) -> nth_error (disc_list k vars) i = Some (variant_disc (k + i) d).
Proof.
  revert k i. induction vars as [|[[d0 vr0] fs0] vars IH]; intros k [|i] H; try discriminate.
  - simpl in H. injection H as -> -> ->. simpl. rewrite Nat.add_0_r. reflexivity.
  - simpl in H. simpl. rewrite (IH (S k) i H). do 2 f_equal. lia.
Qed.

Lemma decode_tagged_nth (dec : ty -> node -> result value from_clvm_error) (r : repr)
    (vars : list variant) (k i : nat) (d : option Z) (vr : option repr) (fs : list ty)
    (p : node) :
  nodupb (disc_list k vars) = true -> nth_error vars i = Some (d, vr, fs) ->
  decode_tagged dec r vars k (variant_disc (k + i) d) p =
  (vs <- (match fs with
          | [] => if is_nil p then Ok [] else Err ExpectedNil
          | _ => unframe dec (repr_or r vr) fs p
          end) ;;
   Ok (VEnum (k + i) vs)).
Proof.
  revert k i. induction vars as [|[[d0 vr0] fs0] vars IH]; intros k [|i] Hnd H; try discriminate.
  - simpl in H. injection H as -> -> ->. simpl. rewrite Nat.add_0_r, Z.eqb_refl. reflexivity.
  - simpl in H. simpl in Hnd |- *. apply andb_true_iff in Hnd. destruct Hnd as [Hn1 Hn2].
    pose proof (disc_list_nth vars (S k) i d vr fs H) as Hd.
    replace (k + S i)%nat with (S k + i)%nat by lia.
    destruct (variant_disc k d0 =? variant_disc (S k + i) d) eqn:E.
    + apply Z.eqb_eq in E. rewrite E in Hn1. apply negb_true_iff in Hn1.
      assert (Hin : In (variant_disc (S k + i) d) (disc_list (S k) vars))
        by (eapply nth_error_In; exact Hd).
      assert (existsb (Z.eqb (variant_disc (S k + i) d)) (disc_list (S k) vars) = true).
      { apply existsb_exists. exists (variant_disc (S k + i) d). split; [exact Hin | apply Z.eqb_refl]. }
      congruence.
    + exact (IH (S k) i Hn2 H).
Qed.

Lemma payload_roundtrip (dec : ty -> node -> result value from_clvm_error) (r : repr)
    (fs : list ty) (ns : list node) (vs : list value) :
  decodes dec fs ns vs ->
  (match fs with
   | [] => if is_nil (match fs with [] => NIL | _ => frame r ns end) then Ok [] else Err ExpectedNil
   | _ => unframe dec r fs (match fs with [] => NIL | _ => frame r ns end)
   end) = Ok vs.
Proof.
  intros H. destruct fs as [|f fs].
  - destruct ns, vs; simpl in H; try tauto; reflexivity.
  - apply unframe_frame. exact H.
Qed.

Lemma forallb_In_true {A} (p : A -> bool) (l : list A) (x : A) :
  forallb p l = true -> In x l -> p x = true.
Proof. rewrite forallb_forall. auto. Qed.

Lemma fields_rt_of (fs : list ty) :
  Forall (fun t => wf_ty t = true -> rt_ok t -> roundtrips t) fs ->
  forallb wf_ty fs = true -> all_fields rt_ok fs -> Forall roundtrips fs.
Proof.
  induction fs as [|f fs IH]; intros HF Hw Hr; [constructor|].
  inversion HF as [|? ? Hf HF']; subst. simpl in Hw, Hr. apply andb_true_iff in Hw.
  constructor; [apply Hf; tauto | apply IH; tauto].
Qed.

Lemma variants_rt_of (vars : list variant) :
  Forall (fun v : variant => Forall (fun t => wf_ty t = true -> rt_ok t -> roundtrips t) (snd v)) vars ->
  all_variantsb wf_ty vars = true -> all_variants rt_ok vars ->
  Forall (fun v : variant => Forall roundtrips (snd v)) vars.
Proof.
  induction vars as [|[[d vr] fs] vars IH]; intros HF Hw Hr; [constructor|].
  inversion HF as [|? ? Hf HF']; subst. simpl in Hw, Hr. apply andb_true_iff in Hw.
  constructor; [apply fields_rt_of; tauto | apply IH; tauto].
Qed.

Lemma is_nil_false (n : node) : n <> NIL -> is_nil n = false.
Proof. unfold NIL. destruct n as [[|b bs]|a b]; simpl; congruence. Qed.

Lemma roundtrip_ty (t : ty) : wf_ty t = true -> rt_ok t -> roundtrips t.
Proof.
  induction t as [s bits | | k | | t IH | t IH | r fs IH | d r vars IH | r vars IH]
    using ty_ind'; intros Hw Hr v Hv; destruct v; simpl in Hv; try discriminate.
  - eexists. split; [reflexivity|]. simpl. rewrite (decode_encode_int s bits z Hv). reflexivity.
  - eexists. split; reflexivity.
  - eexists. split; [reflexivity|]. simpl. unfold decode_array. simpl. rewrite Hv. reflexivity.
  - destruct b; eexists; split; reflexivity.
  - simpl in Hw, Hr. destruct Hr as [Hr Hnil]. destruct o as [v|].
    + destruct (IH Hw Hr v Hv) as [n [Hn Hd]]. exists n. split; [exact Hn|]. simpl.
      rewrite is_nil_false by (intros ->; exact (Hnil v Hv Hn)). rewrite Hd. reflexivity.
    + eexists. split; reflexivity.
  - simpl in Hw, Hr. destruct (elems_roundtrip t vs (IH Hw Hr) Hv) as [ns [Hns Hd]].
    simpl. rewrite Hns. eexists. split; [reflexivity|]. simpl. rewrite Hd. reflexivity.
  - simpl in Hw, Hr. destruct (fields_roundtrip fs vs (fields_rt_of fs IH Hw Hr) Hv) as [ns [Hns Hd]].
    simpl. rewrite Hns. eexists. split; [reflexivity|]. simpl.
    rewrite (unframe_frame from_clvm r fs ns vs Hd). reflexivity.
  - simpl in Hw, Hr. apply andb_true_iff in Hw. destruct Hw as [Hw Hwv].
    apply andb_true_iff in Hw. destruct Hw as [Hrange Hnd].
    pose proof (variants_rt_of vars IH Hwv Hr) as HV.
    destruct (typed_variant_nth _ vars index vs Hv) as (dv & vr & fs & Hn & Hf).
    destruct (fields_roundtrip fs vs (Forall_variant_nth _ _ _ _ _ _ HV Hn) Hf) as [ns [Hns Hd]].
    simpl. rewrite (encode_tagged_nth _ _ r vars 0 index vs dv vr fs Hn), Hns.
    eexists. split; [reflexivity|]. simpl.
    assert (Hz : in_range (fst (disc_type d)) (snd (disc_type d)) (variant_disc index dv) = true).
    { eapply forallb_In_true; [exact Hrange|]. eapply nth_error_In.
      exact (disc_list_nth vars 0 index dv vr fs Hn). }
    rewrite (decode_encode_int _ _ _ Hz). cbn [bind].
    rewrite (decode_tagged_nth from_clvm r vars 0 index dv vr fs _ Hnd Hn).
    rewrite (payload_roundtrip from_clvm (repr_or r vr) fs ns vs Hd). reflexivity.
  - simpl in Hw, Hr. destruct Hr as [Hr Hsep].
    pose proof (variants_rt_of vars IH Hw Hr) as HV.
    destruct (typed_variant_nth _ vars index vs Hv) as (dv & vr & fs & Hn & Hf).
    destruct (fields_roundtrip fs vs (Forall_variant_nth _ _ _ _ _ _ HV Hn) Hf) as [ns [Hns Hd]].
    assert (Henc : encode_untagged to_clvm r vars index vs = Ok (frame (repr_or r vr) ns))
      by (rewrite (encode_untagged_nth _ r vars index vs dv vr fs Hn), Hns; reflexivity).
    exists (frame (repr_or r vr) ns). split; [exact Henc|]. simpl.
    apply (decode_untagged_first from_clvm r vars 0 index _ vs dv vr fs).
    + intros j d' vr' fs' Hj Hj'. pose proof (Hsep index j vs _ Hj Hv Henc) as Hrej.
      unfold variant_rejects in Hrej. rewrite Hj' in Hrej. exact Hrej.
    + exact Hn.
    + exact (unframe_frame from_clvm (repr_or r vr) fs ns vs Hd).
Qed.

(** ** Helpers on atoms and the [Proof] codec *)

Lemma decode_array_atom (k : nat) (bs : list byte) :
  length bs = k -> decode_array k (Atom bs) = Ok bs.
Proof. intros <-. unfold decode_array. simpl. rewrite Nat.eqb_refl. reflexivity. Qed.

Lemma is_byte_atom_eq (b : byte) (n : node) : is_byte_atom b n = true -> n = Atom [b].
Proof.
  destruct n as [[|b' [|b'' bs]]|a c]; simpl; try discriminate.
  intros H. apply Byte.byte_dec_bl in H. subst. reflexivity.
Qed.

Lemma is_nil_eq (n : node) : is_nil n = true -> n = NIL.
Proof. destruct n as [[|b bs]|a c]; simpl; try discriminate. reflexivity. Qed.

Lemma curry_cell_eq (n a rest : node) :
  curry_cell n = Some (a, rest) -> n = Pair op_c (Pair (Pair op_q a) (Pair rest NIL)).
Proof.
  destruct n as [|c [|[|q a'] [|rest' t]]]; simpl; try discriminate.
  destruct (is_byte_atom Byte.x04 c) eqn:E1; [|discriminate].
  destruct (is_byte_atom Byte.x01 q) eqn:E2; [|discriminate].
  destruct (is_nil t) eqn:E3; [|discriminate]. simpl.
  intros H. injection H as -> ->.
  apply is_byte_atom_eq in E1. apply is_byte_atom_eq in E2. apply is_nil_eq in E3.
  subst. reflexivity.
Qed.

Lemma encode_int_zero (bits : nat) : encode_int bits 0 = [].
Proof.
  assert (Hv : int_of_bytes (encode_int bits 0) = 0).
  { unfold encode_int. rewrite int_of_bytes_strip. apply int_of_bytes_be_bytes; [lia|].
    rewrite pow8_S_half. pose proof (pow8_pos (bits / 8)). lia. }
  pose proof (canonical_minimal (encode_int bits 0) [] (encode_int_canonical bits 0)
                (eq_sym Hv)) as H.
  destruct (encode_int bits 0); [reflexivity | simpl in H; lia].
Qed.

Lemma encode_int_minus_one (bits : nat) : encode_int bits (-1) = [Byte.xff].
Proof.
  assert (Hv : int_of_bytes (encode_int bits (-1)) = -1).
  { unfold encode_int. rewrite int_of_bytes_strip. apply int_of_bytes_be_bytes; [lia|].
    rewrite pow8_S_half. pose proof (pow8_pos (bits / 8)). lia. }
  pose proof (canonical_minimal (encode_int bits (-1)) [Byte.xff]
                (encode_int_canonical bits (-1)) (eq_trans eq_refl (eq_sym Hv))) as H.
  destruct (encode_int bits (-1)) as [|b [|b' l]]; simpl in H; try lia.
  - discriminate.
  - rewrite int_of_bytes_cons in Hv. unfold be_value in Hv. simpl in Hv.
    pose proof (bz_range b).
    destruct (128 <=? bz b) eqn:E; [apply Z.leb_le in E | apply Z.leb_gt in E]; try lia.
    f_equal. apply bz_inj. change (bz Byte.xff) with 255. lia.
Qed.

Lemma LineageProof_roundtrip (l : LineageProof) :
  LineageProof_wf l = true ->
  LineageProof_from_clvm (list_frame [Atom (parent_coin_info l); Atom (inner_puzzle_hash l);
                                      Atom (encode_int 64 (amount l))]) = Ok l.
Proof.
  destruct l as [pci iph amt]. unfold LineageProof_wf. simpl. intros H.
  apply andb_true_iff in H. destruct H as [H H3]. apply andb_true_iff in H. destruct H as [H1 H2].
  apply Nat.eqb_eq in H1, H2.
  unfold LineageProof_from_clvm. simpl list_frame.
  rewrite (decode_array_atom 32 pci H1). cbn [bind].
  rewrite (decode_array_atom 32 iph H2). cbn [bind].
  rewrite (decode_encode_int false 64 amt H3). reflexivity.
Qed.

Lemma EveProof_roundtrip (e : EveProof) :
  EveProof_wf e = true ->
  EveProof_from_clvm (list_frame [Atom (eve_parent_coin_info e); Atom (encode_int 64 (eve_amount e))])
  = Ok e.
Proof.
  destruct e as [pci amt]. unfold EveProof_wf. simpl. intros H.
  apply andb_true_iff in H. destruct H as [H1 H2]. apply Nat.eqb_eq in H1.
  unfold EveProof_from_clvm. simpl list_frame.
  rewrite (decode_array_atom 32 pci H1). cbn [bind].
  rewrite (decode_encode_int false 64 amt H2). reflexivity.
Qed.

(** A two-element proper list is never a [LineageProof]. *)

(** A two-element proper list is never a [LineageProof]. *)
Lemma LineageProof_rejects_two (x w : node) :
  exists e, LineageProof_from_clvm (list_frame [x; w]) = Err e.
Proof.
  unfold LineageProof_from_clvm, list_frame, NIL. cbv beta iota.
  destruct (decode_array 32 x) as [a|e]; cbn [bind]; [|eexists; reflexivity].
  destruct (decode_array 32 w) as [b|e]; cbn [bind]; eexists; reflexivity.
Qed.

Lemma Proof_roundtrip (p : Proof) :
  Proof_wf p = true -> exists n, Proof_to_clvm p = Ok n /\ Proof_from_clvm n = Ok p.
Proof.
  destruct p as [l|e]; simpl; intros H.
  - eexists. split; [reflexivity|]. unfold Proof_from_clvm.
    rewrite (LineageProof_roundtrip l H). reflexivity.
  - eexists. split; [reflexivity|]. unfold Proof_from_clvm.
    destruct (LineageProof_rejects_two (Atom (eve_parent_coin_info e))
                (Atom (encode_int 64 (eve_amount e)))) as [err Herr].
    rewrite Herr, (EveProof_roundtrip e H). reflexivity.
Qed.

(** Decoding a curry-framed struct succeeds only on the exact curried shape. *)
Lemma uncurry_shape (dec : ty -> node -> result value from_clvm_error)
    (fs : list ty) (n : node) (vs : list value) :
  uncurry dec fs n = Ok vs -> exists ns, n = curry_frame ns /\ decodes dec fs ns vs.
Proof.
  revert n vs. induction fs as [|f fs IH]; intros n vs H; simpl in H.
  - destruct (is_byte_atom Byte.x01 n) eqn:E; [|discriminate].
    injection H as <-. exists []. split; [apply is_byte_atom_eq; exact E | exact I].
  - destruct (curry_cell n) as [[a rest]|] eqn:E; [|discriminate].
    apply curry_cell_eq in E. subst n.
    destruct (dec f a) as [v|e] eqn:Ha; [|discriminate]. cbn [bind] in H.
    destruct (uncurry dec fs rest) as [vs'|e] eqn:Hr; [|discriminate]. cbn [bind] in H.
    injection H as <-. destruct (IH rest vs' Hr) as [ns [-> Hd]].
    exists (a :: ns). split; [reflexivity | simpl; tauto].
Qed.

Lemma disc_list_default (vars : list variant) (k : nat) :
  Forall (fun v : variant => fst (fst v) = None) vars ->
  disc_list k vars = map Z.of_nat (seq k (length vars)).
Proof.
  revert k. induction vars as [|[[d vr] fs] vars IH]; intros k H; [reflexivity|].
  inversion H as [|? ? Hd H']; subst. simpl in Hd. subst d. simpl. rewrite (IH (S k) H').
  reflexivity.
Qed.

(** ** Golden values of the crate tests (lib.rs) *)

Example encode_int_52 : map bz (encode_int 64 52) = [52]. Proof. reflexivity. Qed.
Example encode_int_m32 : map bz (encode_int 32 (-32)) = [224]. Proof. reflexivity. Qed.
Example encode_int_m1 : map bz (encode_int 32 (-1)) = [255]. Proof. reflexivity. Qed.
Example encode_int_0 : encode_int 32 0 = []. Proof. reflexivity. Qed.
Example encode_int_128 : map bz (encode_int 8 128) = [0; 128]. Proof. reflexivity. Qed.
Example int_of_bytes_m129 : int_of_bytes (encode_int 16 (-129)) = -129. Proof. reflexivity. Qed.

Example tuple_hex : hex_of (to_clvm TupleStruct (VStruct [VInt 52; VInt (-32)])) = "ff3481e0"%string.
Proof. reflexivity. Qed.
Example list_hex : hex_of (to_clvm ListStruct (VStruct [VInt 52; VInt (-32)])) = "ff34ff81e080"%string.
Proof. reflexivity. Qed.
Example curry_hex : hex_of (to_clvm CurryStruct (VStruct [VInt 52; VInt (-32)]))
  = "ff04ffff0134ffff04ffff0181e0ff018080"%string.
Proof. reflexivity. Qed.
Example enum_hex :
  hex_of (to_clvm DefaultEnum (VEnum 0 [VInt 32])) = "ff8020"%string /\
  hex_of (to_clvm DefaultEnum (VEnum 1 [VInt (-72)])) = "ff0181b8"%string /\
  hex_of (to_clvm DefaultEnum (VEnum 2 [])) = "ff0280"%string /\
  hex_of (to_clvm ExplicitEnum (VEnum 0 [VInt 32])) = "ff2a20"%string /\
  hex_of (to_clvm ExplicitEnum (VEnum 1 [VInt (-72)])) = "ff2281b8"%string /\
  hex_of (to_clvm ExplicitEnum (VEnum 2 [])) = "ff0b80"%string.
Proof. repeat split; reflexivity. Qed.
Example untagged_hex :
  hex_of (to_clvm UntaggedEnum (VEnum 0 [VInt 32])) = "20"%string /\
  hex_of (to_clvm UntaggedEnum (VEnum 1 [VInt (-72); VInt 94])) = "ff81b8ff5e80"%string /\
  hex_of (to_clvm UntaggedEnum (VEnum 2 [VBytes [Byte.x48; Byte.x65; Byte.x6c; Byte.x6c; Byte.x6f]]))
    = "ff04ffff018548656c6c6fff0180"%string.
Proof. repeat split; reflexivity. Qed.
Example untagged_rt :
  bind (to_clvm UntaggedEnum (VEnum 1 [VInt (-72); VInt 94])) (fun n => match from_clvm UntaggedEnum n with Ok v => Ok v | Err _ => Err IllTyped end)
  = Ok (VEnum 1 [VInt (-72); VInt 94]).
Proof. reflexivity. Qed.

(** * The claims *)

(** C1 (corrected).  Decoding the encoding of a well-typed value gives the value
    back, for every type in which each [Option<T>] wraps a [T] none of whose
    values encodes to the nil atom and each untagged enum has no variant whose
    decoder accepts the encoding of a value of a later variant (tagged enums
    having distinct, in-range discriminants, as Rust requires); and for every
    [Proof] whose fields inhabit their Rust types. *)
Theorem decode_encode_roundtrip :
  (forall t v, wf_ty t = true -> rt_ok t -> well_typed t v = true ->
     exists n, to_clvm t v = Ok n /\ from_clvm t n = Ok v) /\
  (forall p, Proof_wf p = true -> exists n, Proof_to_clvm p = Ok n /\ Proof_from_clvm n = Ok p).
Proof.
  split.
  - intros t v Hw Hr Hv. exact (roundtrip_ty t Hw Hr v Hv).
  - exact Proof_roundtrip.
Qed.

Lemma decode_encode_roundtrip_witness :
  exists n, to_clvm CurryStruct (VStruct [VInt 52; VInt (-32)]) = Ok n /\
            from_clvm CurryStruct n = Ok (VStruct [VInt 52; VInt (-32)]).
Proof.
  apply (proj1 decode_encode_roundtrip); [reflexivity | simpl; tauto | reflexivity].
Defined.

(** C1, counterexample: [Some(0u64) : Option<u64>] encodes to the nil atom,
    which decodes as [None]; in [#[clvm(untagged)] enum { A(i32), B(i64) }] the
    value [B(5)] decodes as [A(5)]. *)
Lemma roundtrip_counterexample :
  well_typed (TOption u64) (VOption (Some (VInt 0))) = true /\
  to_clvm (TOption u64) (VOption (Some (VInt 0))) = Ok NIL /\
  from_clvm (TOption u64) NIL = Ok (VOption None) /\
  wf_ty (TUntagged Tuple [(None, None, [i32]); (None, None, [TInt true 64])]) = true /\
  well_typed (TUntagged Tuple [(None, None, [i32]); (None, None, [TInt true 64])])
    (VEnum 1 [VInt 5]) = true /\
  to_clvm (TUntagged Tuple [(None, None, [i32]); (None, None, [TInt true 64])])
    (VEnum 1 [VInt 5]) = Ok (Atom [Byte.x05]) /\
  from_clvm (TUntagged Tuple [(None, None, [i32]); (None, None, [TInt true 64])])
    (Atom [Byte.x05]) = Ok (VEnum 0 [VInt 5]).
Proof. repeat split; reflexivity. Qed.

(** C2.  A fixed-width integer encodes as the minimal-length big-endian
    two's-complement atom: read back as two's complement it is the value (and
    decodes to it at the original width), no leading byte is a redundant [0x00]
    or [0xff], no shorter byte string has the same value; [0] is the empty atom,
    [-1] the single byte [0xff]; [52u64] is [0x34], [-32i32] is [0xe0]. *)
Theorem int_encoding_minimal (signed : bool) (bits : nat) (z : Z)
    (H : in_range signed bits z = true) :
  to_clvm (TInt signed bits) (VInt z) = Ok (Atom (encode_int bits z)) /\
  int_of_bytes (encode_int bits z) = z /\
  from_clvm (TInt signed bits) (Atom (encode_int bits z)) = Ok (VInt z) /\
  canonical (encode_int bits z) = true /\
  (forall l, int_of_bytes l = z -> (length (encode_int bits z) <= length l)%nat) /\
  (z = 0 -> encode_int bits z = []) /\
  (z = -1 -> encode_int bits z = [Byte.xff]) /\
  to_clvm u64 (VInt 52) = Ok (Atom [Byte.x34]) /\
  to_clvm i32 (VInt (-32)) = Ok (Atom [Byte.xe0]).
Proof.
  pose proof (int_of_bytes_encode_int signed bits z H) as Hv.
  split; [reflexivity|]. split; [exact Hv|].
  split; [simpl; rewrite (decode_encode_int signed bits z H); reflexivity|].
  split; [apply encode_int_canonical|].
  split; [intros l Hl; apply canonical_minimal; [apply encode_int_canonical | congruence]|].
  split; [intros ->; apply encode_int_zero|].
  split; [intros ->; apply encode_int_minus_one|].
  split; reflexivity.
Qed.

Lemma int_encoding_minimal_witness :
  in_range true 32 (-1) = true /\ to_clvm (TInt true 32) (VInt (-1)) = Ok (Atom [Byte.xff]).
Proof.
  split; [reflexivity|].
  destruct (int_encoding_minimal true 32 (-1) eq_refl) as (H1 & _ & _ & _ & _ & _ & H7 & _).
  rewrite H1, (H7 eq_refl). reflexivity.
Defined.

(** C3.  [{a: 52u64, b: -32i32}] under [List] framing encodes to
    [pair(52, pair(-32, nil))], serialized [ff34ff81e080]; under [Tuple] framing
    to [pair(52, -32)], serialized [ff3481e0]. *)
Theorem struct_framing_bytes :
  to_clvm ListStruct (VStruct [VInt 52; VInt (-32)]) =
    Ok (Pair (Atom [Byte.x34]) (Pair (Atom [Byte.xe0]) NIL)) /\
  hex_of (to_clvm ListStruct (VStruct [VInt 52; VInt (-32)])) = "ff34ff81e080"%string /\
  to_clvm TupleStruct (VStruct [VInt 52; VInt (-32)]) =
    Ok (Pair (Atom [Byte.x34]) (Atom [Byte.xe0])) /\
  hex_of (to_clvm TupleStruct (VStruct [VInt 52; VInt (-32)])) = "ff3481e0"%string.
Proof. repeat split; reflexivity. Qed.

(** C4, counterexample: with each field wrapped as the claim writes it,
    [pair(c, pair(pair(q, pair(f, NIL)), pair(acc, NIL)))], the struct
    [{a: 52u64, b: -32i32}] does not serialize to
    [ff04ffff0134ffff04ffff0181e0ff018080], and the curry encoder does not
    produce that node. *)
Lemma curry_claim_shape_mismatch :
  hex_encode (node_to_bytes (curry_frame_claim [Atom [Byte.x34]; Atom [Byte.xe0]]))
    <> "ff04ffff0134ffff04ffff0181e0ff018080"%string /\
  to_clvm CurryStruct (VStruct [VInt 52; VInt (-32)])
    <> Ok (curry_frame_claim [Atom [Byte.x34]; Atom [Byte.xe0]]).
Proof. split; [vm_compute; discriminate | discriminate]. Qed.

(** C4 (corrected).  Curry framing builds right to left from the atom [1],
    wrapping each field as [pair(c, pair(pair(q, f), pair(acc, NIL)))], the shape
    [(c (q . f1) (c (q . f2) ... 1))]; [{a: 52u64, b: -32i32}] serializes to
    [ff04ffff0134ffff04ffff0181e0ff018080]; decoding succeeds exactly on this
    nested shape ending in the atom [1], inverts it, and fails with
    [InvalidCurryForm] when the terminator is not [1]. *)
Theorem curry_framing_shape :
  curry_frame [] = Atom [Byte.x01] /\
  (forall n ns, curry_frame (n :: ns) = Pair op_c (Pair (Pair op_q n) (Pair (curry_frame ns) NIL))) /\
  to_clvm CurryStruct (VStruct [VInt 52; VInt (-32)]) =
    Ok (curry_frame [Atom [Byte.x34]; Atom [Byte.xe0]]) /\
  hex_of (to_clvm CurryStruct (VStruct [VInt 52; VInt (-32)]))
    = "ff04ffff0134ffff04ffff0181e0ff018080"%string /\
  from_clvm CurryStruct (curry_frame [Atom [Byte.x34]; Atom [Byte.xe0]])
    = Ok (VStruct [VInt 52; VInt (-32)]) /\
  (forall dec fs ns vs, decodes dec fs ns vs -> uncurry dec fs (curry_frame ns) = Ok vs) /\
  (forall dec fs n vs, uncurry dec fs n = Ok vs -> exists ns, n = curry_frame ns /\ decodes dec fs ns vs) /\
  (forall dec n, n <> env_one -> uncurry dec [] n = Err InvalidCurryForm).
Proof.
  split; [reflexivity|]. split; [reflexivity|].
  split; [reflexivity|]. split; [reflexivity|]. split; [reflexivity|].
  split; [exact uncurry_frame|]. split; [exact uncurry_shape|].
  intros dec n Hn. simpl. destruct (is_byte_atom Byte.x01 n) eqn:E; [|reflexivity].
  apply is_byte_atom_eq in E. contradiction.
Qed.

(** C5.  [Proof] decoding tries [Lineage] first and returns its success; only
    when it fails is [Eve] tried; a proper 3-element list of a 32-byte array, a
    32-byte array and a [u64] decodes as [Lineage], a proper 2-element list of a
    32-byte array and a [u64] as [Eve]; when both fail the decode fails with
    [Eve]'s (the last variant's) error.  Generic untagged decoding returns the
    first variant that accepts, and [NoMatchingVariant] with no variant. *)
Theorem proof_trial_decode :
  (forall n l, LineageProof_from_clvm n = Ok l -> Proof_from_clvm n = Ok (Lineage l)) /\
  (forall n e, LineageProof_from_clvm n = Err e ->
     Proof_from_clvm n = match EveProof_from_clvm n with Ok p => Ok (Eve p) | Err err => Err err end) /\
  (forall x y w a b z, decode_array 32 x = Ok a -> decode_array 32 y = Ok b ->
     decode_int false 64 w = Ok z ->
     Proof_from_clvm (list_frame [x; y; w]) =
     Ok (Lineage {| parent_coin_info := a; inner_puzzle_hash := b; amount := z |})) /\
  (forall x w a z, decode_array 32 x = Ok a -> decode_int false 64 w = Ok z ->
     Proof_from_clvm (list_frame [x; w]) =
     Ok (Eve {| eve_parent_coin_info := a; eve_amount := z |})) /\
  (forall n e1 e2, LineageProof_from_clvm n = Err e1 -> EveProof_from_clvm n = Err e2 ->
     Proof_from_clvm n = Err e2) /\
  (forall dec r vars k i n vs d vr fs,
     (forall j d' vr' fs', (j < i)%nat -> nth_error vars j = Some (d', vr', fs') ->
        exists e, unframe dec (repr_or r vr') fs' n = Err e) ->
     nth_error vars i = Some (d, vr, fs) -> unframe dec (repr_or r vr) fs n = Ok vs ->
     decode_untagged dec r vars k n = Ok (VEnum (k + i) vs)) /\
  (forall dec r k n, decode_untagged dec r [] k n = Err NoMatchingVariant).
Proof.
  split; [intros n l H; unfold Proof_from_clvm; rewrite H; reflexivity|].
  split; [intros n e H; unfold Proof_from_clvm; rewrite H; reflexivity|].
  split.
  { intros x y w a b z Hx Hy Hw. unfold Proof_from_clvm, LineageProof_from_clvm, list_frame, NIL.
    cbv beta iota. rewrite Hx. cbn [bind]. rewrite Hy. cbn [bind]. rewrite Hw. reflexivity. }
  split.
  { intros x w a z Hx Hw. unfold Proof_from_clvm.
    destruct (LineageProof_rejects_two x w) as [e He]. rewrite He.
    unfold EveProof_from_clvm, list_frame, NIL. cbv beta iota.
    rewrite Hx. cbn [bind]. rewrite Hw. reflexivity. }
  split; [intros n e1 e2 H1 H2; unfold Proof_from_clvm; rewrite H1, H2; reflexivity|].
  split; [exact decode_untagged_first|].
  reflexivity.
Qed.

Lemma proof_trial_decode_witness :
  Proof_from_clvm (list_frame [Atom (repeat Byte.x00 32); Atom [Byte.x07]]) =
  Ok (Eve {| eve_parent_coin_info := repeat Byte.x00 32; eve_amount := 7 |}).
Proof.
  apply (proj1 (proj2 (proj2 (proj2 proof_trial_decode)))); reflexivity.
Defined.

(** C6.  A tagged enum encodes variant [i] as [pair(discriminant_atom, payload)],
    the discriminant atom being the minimal encoding of the variant's
    discriminant at the discriminant width and a zero-field variant's payload
    being nil; the discriminant type defaults to [u8]; without explicit values
    the discriminants are [0, 1, 2, ...] in declaration order; with distinct
    discriminants decoding selects the variant by its discriminant; explicit
    values (42, 34, 11) replace the defaults in both directions. *)
Theorem tagged_enum_encoding :
  (forall d r vars i vs dv vr fs, nth_error vars i = Some (dv, vr, fs) ->
     to_clvm (TTagged d r vars) (VEnum i vs) =
     (ns <- encode_fields to_clvm fs vs ;;
      Ok (Pair (Atom (encode_int (snd (disc_type d)) (variant_disc i dv)))
               (match fs with [] => NIL | _ => frame (repr_or r vr) ns end)))) /\
  disc_type None = (false, 8%nat) /\
  (forall vars, Forall (fun v : variant => fst (fst v) = None) vars ->
     disc_list 0 vars = map Z.of_nat (seq 0 (length vars))) /\
  (forall d r vars i dv vr fs p,
     nodupb (disc_list 0 vars) = true -> nth_error vars i = Some (dv, vr, fs) ->
     in_range (fst (disc_type d)) (snd (disc_type d)) (variant_disc i dv) = true ->
     from_clvm (TTagged d r vars)
       (Pair (Atom (encode_int (snd (disc_type d)) (variant_disc i dv))) p) =
     (vs <- (match fs with
             | [] => if is_nil p then Ok [] else Err ExpectedNil
             | _ => unframe from_clvm (repr_or r vr) fs p
             end) ;;
      Ok (VEnum i vs))) /\
  hex_of (to_clvm DefaultEnum (VEnum 0 [VInt 32])) = "ff8020"%string /\
  hex_of (to_clvm DefaultEnum (VEnum 1 [VInt (-72)])) = "ff0181b8"%string /\
  hex_of (to_clvm DefaultEnum (VEnum 2 [])) = "ff0280"%string /\
  hex_of (to_clvm ExplicitEnum (VEnum 0 [VInt 32])) = "ff2a20"%string /\
  hex_of (to_clvm ExplicitEnum (VEnum 1 [VInt (-72)])) = "ff2281b8"%string /\
  hex_of (to_clvm ExplicitEnum (VEnum 2 [])) = "ff0b80"%string /\
  from_clvm DefaultEnum (Pair (Atom [Byte.x01]) (Atom [Byte.xb8])) = Ok (VEnum 1 [VInt (-72)]) /\
  from_clvm ExplicitEnum (Pair (Atom [Byte.x22]) (Atom [Byte.xb8])) = Ok (VEnum 1 [VInt (-72)]) /\
  from_clvm ExplicitEnum (Pair (Atom [Byte.x0b]) NIL) = Ok (VEnum 2 []) /\
  from_clvm ExplicitEnum (Pair (Atom [Byte.x01]) (Atom [Byte.xb8])) = Err WrongDiscriminant.
Proof.
  split.
  { intros d r vars i vs dv vr fs H. cbn [to_clvm].
    exact (encode_tagged_nth to_clvm (snd (disc_type d)) r vars 0 i vs dv vr fs H). }
  split; [reflexivity|].
  split; [exact (fun vars => disc_list_default vars 0)|].
  split.
  { intros d r vars i dv vr fs p Hnd Hn Hr. cbn [from_clvm].
    rewrite (decode_encode_int _ _ _ Hr). cbn [bind].
    exact (decode_tagged_nth from_clvm r vars 0 i dv vr fs p Hnd Hn). }
  repeat split; reflexivity.
Qed.

(** C7.  Encoding is total: every well-typed value of the type universe encodes
    to a node, never to an error, and so does every [Proof]. *)
Theorem encode_total :
  (forall t v, well_typed t v = true -> exists n, to_clvm t v = Ok n) /\
  (forall p, exists n, Proof_to_clvm p = Ok n).
Proof.
  split; [exact to_clvm_total_ty|].
  intros [l|e]; eexists; reflexivity.
Qed.

(** C8.  [true] encodes as the atom [0x01] and [false] as the nil atom; decoding
    succeeds exactly on these two atoms, with the matching value, and every
    other node, a pair or any other atom such as [0x00], fails with a [Custom]
    error. *)
Theorem bool_codec :
  to_clvm TBool (VBool true) = Ok (Atom [Byte.x01]) /\
  to_clvm TBool (VBool false) = Ok NIL /\
  from_clvm TBool (Atom [Byte.x01]) = Ok (VBool true) /\
  from_clvm TBool NIL = Ok (VBool false) /\
  (forall n v, from_clvm TBool n = Ok v ->
     (n = Atom [Byte.x01] /\ v = VBool true) \/ (n = NIL /\ v = VBool false)) /\
  (forall n, n <> Atom [Byte.x01] -> n <> NIL ->
     exists msg, from_clvm TBool n = Err (Custom msg)) /\
  (exists msg, from_clvm TBool (Atom [Byte.x00]) = Err (Custom msg)) /\
  (forall a b, exists msg, from_clvm TBool (Pair a b) = Err (Custom msg)).
Proof.
  split; [reflexivity|]. split; [reflexivity|]. split; [reflexivity|]. split; [reflexivity|].
  split.
  { intros n v H. cbn [from_clvm] in H. unfold decode_bool in H.
    destruct n as [[|b [|b' bs]]|a c]; simpl in H; try discriminate.
    - right. injection H as <-. split; reflexivity.
    - destruct (Byte.eqb b Byte.x01) eqn:E; [|discriminate].
      apply Byte.byte_dec_bl in E. subst b. left. injection H as <-. split; reflexivity. }
  split.
  { intros n H1 H2. cbn [from_clvm]. unfold decode_bool.
    destruct n as [[|b [|b' bs]]|a c]; simpl.
    - exfalso. apply H2. reflexivity.
    - destruct (Byte.eqb b Byte.x01) eqn:E.
      + apply Byte.byte_dec_bl in E. subst b. contradiction.
      + eexists; reflexivity.
    - eexists; reflexivity.
    - eexists; reflexivity. }
  split; [eexists; reflexivity|].
  intros a b. eexists; reflexivity.
Qed.

(** C9, counterexample: decoding a pair as a 32-byte array does not fail with
    [WrongAtomLength]; it fails with [ExpectedAtom]. *)
Lemma array_pair_not_wrong_length :
  from_clvm (TArray 32) (Pair NIL NIL) = Err ExpectedAtom /\
  from_clvm (TArray 32) (Pair NIL NIL) <> Err WrongAtomLength.
Proof. split; [reflexivity | discriminate]. Qed.

(** C9 (corrected).  Decoding a node as an [N]-byte array succeeds only on an
    atom of length exactly [N], returning its bytes; an atom of any other length
    fails with [WrongAtomLength], a pair with [ExpectedAtom]; in particular a
    33-byte atom is rejected as a 32-byte array with [WrongAtomLength], also as
    the [parent_coin_info] field of a [LineageProof]. *)
Theorem fixed_array_decode :
  (forall k n v, from_clvm (TArray k) n = Ok v ->
     exists bs, n = Atom bs /\ length bs = k /\ v = VBytes bs) /\
  (forall k bs, length bs = k -> from_clvm (TArray k) (Atom bs) = Ok (VBytes bs)) /\
  (forall k bs, length bs <> k -> from_clvm (TArray k) (Atom bs) = Err WrongAtomLength) /\
  (forall k a b, from_clvm (TArray k) (Pair a b) = Err ExpectedAtom) /\
  from_clvm (TArray 32) (Atom (repeat Byte.x00 33)) = Err WrongAtomLength /\
  (forall r, LineageProof_from_clvm (Pair (Atom (repeat Byte.x00 33)) r) = Err WrongAtomLength).
Proof.
  split.
  { intros k [bs|a b] v H; cbn [from_clvm] in H; unfold decode_array in H; simpl in H;
      [|discriminate].
    destruct (Nat.eqb (length bs) k) eqn:E; [|discriminate].
    apply Nat.eqb_eq in E. injection H as <-. exists bs. auto. }
  split.
  { intros k bs H. cbn [from_clvm]. rewrite (decode_array_atom k bs H). reflexivity. }
  split.
  { intros k bs H. cbn [from_clvm]. unfold decode_array. simpl.
    apply Nat.eqb_neq in H. rewrite H. reflexivity. }
  split; [reflexivity|].
  split; [reflexivity|].
  intros r. reflexivity.
Qed.

(** C10.  With default discriminants and a discriminant type that holds 0, the
    first variant's discriminant 0 encodes as the empty atom, so the variant
    encodes as [pair(nil, payload)]; decoding maps a nil discriminant back to the
    first variant; [Enum::A(32)] serializes to [ff8020], [80] being the
    serialized empty atom. *)
Theorem first_variant_nil_discriminant (d : option (bool * nat)) (r : repr)
    (vr : option repr) (fs : list ty) (vars : list variant) (vs : list value)
    (Hd : in_range (fst (disc_type d)) (snd (disc_type d)) 0 = true) :
  to_clvm (TTagged d r ((None, vr, fs) :: vars)) (VEnum 0 vs) =
    (ns <- encode_fields to_clvm fs vs ;;
     Ok (Pair NIL (match fs with [] => NIL | _ => frame (repr_or r vr) ns end))) /\
  (forall p, from_clvm (TTagged d r ((None, vr, fs) :: vars)) (Pair NIL p) =
    (vs' <- (match fs with
             | [] => if is_nil p then Ok [] else Err ExpectedNil
             | _ => unframe from_clvm (repr_or r vr) fs p
             end) ;;
     Ok (VEnum 0 vs'))) /\
  node_to_bytes NIL = [128] /\
  hex_of (to_clvm DefaultEnum (VEnum 0 [VInt 32])) = "ff8020"%string /\
  from_clvm DefaultEnum (Pair NIL (Atom [Byte.x20])) = Ok (VEnum 0 [VInt 32]).
Proof.
  split.
  { cbn [to_clvm encode_tagged]. unfold variant_disc. cbn [Z.of_nat].
    rewrite encode_int_zero. reflexivity. }
  split.
  { intros p. cbn [from_clvm]. unfold decode_int, atom_of, NIL. cbn [bind].
    change (int_of_bytes []) with 0. rewrite Hd.
    cbn [bind decode_tagged]. unfold variant_disc. cbn [Z.of_nat Z.eqb]. reflexivity. }
  repeat split; reflexivity.
Qed.

Lemma first_variant_nil_discriminant_witness :
  in_range false 8 0 = true /\
  from_clvm (TTagged None Tuple [(None, None, [i32]); (None, None, [])]) (Pair NIL (Atom [Byte.x07]))
    = Ok (VEnum 0 [VInt 7]).
Proof.
  split; [reflexivity|].
  destruct (first_variant_nil_discriminant None Tuple None [i32] [(None, None, [])] [VInt 7]
              (eq_refl true)) as [_ [H _]].
  rewrite H. reflexivity.
Defined.

(** * Further properties of the code *)

(** ** Helpers *)

Lemma bytes_eqb_refl (a : list byte) : bytes_eqb a a = true.
Proof. induction a as [|x a IH]; simpl; [reflexivity|]. rewrite (Byte.byte_dec_lb (eq_refl x)), IH. reflexivity. Qed.

Lemma value_eqb_refl : forall v, value_eqb v v = true.
Proof.
  fix IH 1. intros v. destruct v as [z|bs|b|[v|]|vs|vs|i vs]; simpl.
  - apply Z.eqb_refl.
  - apply bytes_eqb_refl.
  - destruct b; reflexivity.
  - apply IH.
  - reflexivity.
  - revert vs. fix IHl 1. intros [|x xs]; simpl; [reflexivity|]. rewrite IH, IHl. reflexivity.
  - revert vs. fix IHl 1. intros [|x xs]; simpl; [reflexivity|]. rewrite IH, IHl. reflexivity.
  - rewrite Nat.eqb_refl. simpl. revert vs. fix IHl 1. intros [|x xs]; simpl; [reflexivity|].
    rewrite IH, IHl. reflexivity.
Qed.

Lemma Proof_eqb_refl (p : Proof) : Proof_eqb p p = true.
Proof.
  destruct p as [[a b c]|[a c]]; simpl;
    unfold LineageProof_eqb, EveProof_eqb; simpl; rewrite ?bytes_eqb_refl, ?Z.eqb_refl; reflexivity.
Qed.

Lemma Lineage_Eve_exclusive (n : node) (l : LineageProof) (e : EveProof) :
  LineageProof_from_clvm n = Ok l -> EveProof_from_clvm n = Ok e -> False.
Proof.
  unfold LineageProof_from_clvm, EveProof_from_clvm. intros H1 H2.
  destruct n as [bs|a r1]; [discriminate|].
  destruct (decode_array 32 a) as [pci|]; cbn [bind] in H1, H2; [|discriminate].
  destruct r1 as [bs|b r2]; [discriminate|].
  destruct r2 as [bs|c r3]; [destruct (decode_array 32 b); discriminate|].
  destruct (decode_int false 64 b); cbn [bind is_nil] in H2; discriminate.
Qed.

(** X1.  Every [check] call of the test module of lib.rs passes: each value
    round-trips and serializes to the expected hex, for the tuple, list, curry,
    unnamed, newtype, enum, explicit-discriminant enum and untagged enum tests. *)
Theorem lib_tests_pass :
  test_tuple = true /\ test_list = true /\ test_curry = true /\ test_unnamed = true /\
  test_newtype = true /\ test_enum = true /\ test_explicit_enum = true /\
  test_untagged_enum = true.
Proof. repeat split; vm_compute; reflexivity. Qed.

(** X2.  For a well-typed value of a type on which the codec round-trips
    (discriminants well formed, the conditions of [rt_ok]), [check] never panics
    in its encode, decode or round-trip assertion: it passes exactly when the
    expected string is the hex of the encoding. *)
Theorem check_verdict (t : ty) (v : value) (expected : string)
    (Hw : wf_ty t = true) (Hr : rt_ok t) (Hv : well_typed t v = true) :
  check t v expected = String.eqb expected (hex_of (to_clvm t v)).
Proof.
  destruct (roundtrip_ty t Hw Hr v Hv) as [n [H1 H2]].
  unfold check, hex_of. rewrite H1, H2, value_eqb_refl. reflexivity.
Qed.

Lemma check_verdict_witness :
  check NewTypeStruct (VStruct [str "XYZ"]) "8358595a" = true.
Proof.
  rewrite (check_verdict NewTypeStruct (VStruct [str "XYZ"]) "8358595a");
    [reflexivity | reflexivity | simpl; tauto | reflexivity].
Defined.

(** X3.  No node decodes both as a [LineageProof] and as an [EveProof]; hence
    [Proof] decoding does not depend on trying [Lineage] first: a node decodes
    as [Lineage l] exactly when [LineageProof] decodes it to [l], and as [Eve e]
    exactly when [EveProof] decodes it to [e]. *)
Theorem proof_decode_unambiguous :
  (forall n l e, LineageProof_from_clvm n = Ok l -> EveProof_from_clvm n = Ok e -> False) /\
  (forall n l, Proof_from_clvm n = Ok (Lineage l) <-> LineageProof_from_clvm n = Ok l) /\
  (forall n e, Proof_from_clvm n = Ok (Eve e) <-> EveProof_from_clvm n = Ok e).
Proof.
  split; [exact Lineage_Eve_exclusive|].
  split.
  - intros n l. unfold Proof_from_clvm. split.
    + destruct (LineageProof_from_clvm n) as [l'|]; [congruence|].
      destruct (EveProof_from_clvm n); discriminate.
    + intros ->. reflexivity.
  - intros n e. unfold Proof_from_clvm. split.
    + destruct (LineageProof_from_clvm n); [discriminate|].
      destruct (EveProof_from_clvm n); congruence.
    + intros He. destruct (LineageProof_from_clvm n) as [l|] eqn:Hl.
      * exfalso. exact (Lineage_Eve_exclusive n l e Hl He).
      * rewrite He. reflexivity.
Qed.

(** X4.  [Proof] encoding is injective on proofs whose fields inhabit their Rust
    types: two such proofs with the same encoding are equal. *)
Theorem Proof_to_clvm_injective (p q : Proof)
    (Hp : Proof_wf p = true) (Hq : Proof_wf q = true)
    (H : Proof_to_clvm p = Proof_to_clvm q) : p = q.
Proof.
  destruct (Proof_roundtrip p Hp) as [n [Hn Hd]].
  destruct (Proof_roundtrip q Hq) as [m [Hm He]].
  rewrite Hn, Hm in H. injection H as <-. congruence.
Qed.

Lemma Proof_to_clvm_injective_witness :
  Eve {| eve_parent_coin_info := repeat Byte.x00 32; eve_amount := 5 |}
  = Eve {| eve_parent_coin_info := repeat Byte.x00 32; eve_amount := 5 |}.
Proof. apply Proof_to_clvm_injective; reflexivity. Defined.

(** X5.  When the [[u8; 32]] draws of [Unstructured] give 32 bytes and the [u64]
    draws a value in [0, 2^64), every [Proof] that [Proof::arbitrary] produces
    has fields in their Rust types, and the fuzz target's [roundtrip::<Proof>]
    passes on it (no [unwrap] or assertion panics), leaving the input where
    [arbitrary] left it; it panics only when [arbitrary] itself fails. *)
Theorem proof_fuzz_roundtrip (U E : Type)
    (ratio : nat -> nat -> U -> result (bool * U) E)
    (arbitrary_bytes32 : U -> result (list byte * U) E)
    (arbitrary_u64 : U -> result (Z * U) E)
    (H32 : forall u bs u', arbitrary_bytes32 u = Ok (bs, u') -> length bs = 32%nat)
    (H64 : forall u z u', arbitrary_u64 u = Ok (z, u') -> 0 <= z < 2 ^ 64)
    (u : U) :
  (forall p u', Proof_arbitrary U E ratio arbitrary_bytes32 arbitrary_u64 u = Ok (p, u') ->
     Proof_wf p = true /\
     roundtrip Proof U E (Proof_arbitrary U E ratio arbitrary_bytes32 arbitrary_u64)
       Proof_to_clvm Proof_from_clvm Proof_eqb u = Some u') /\
  (forall e, Proof_arbitrary U E ratio arbitrary_bytes32 arbitrary_u64 u = Err e ->
     roundtrip Proof U E (Proof_arbitrary U E ratio arbitrary_bytes32 arbitrary_u64)
       Proof_to_clvm Proof_from_clvm Proof_eqb u = None).
Proof.
  assert (Hwf : forall p u', Proof_arbitrary U E ratio arbitrary_bytes32 arbitrary_u64 u = Ok (p, u') ->
                  Proof_wf p = true).
  { intros p u' H. unfold Proof_arbitrary in H.
    destruct (ratio 3%nat 10%nat u) as [[[|] u1]|]; cbn [bind] in H; [| |discriminate].
    - destruct (arbitrary_bytes32 u1) as [[pci u2]|] eqn:E1; cbn [bind] in H; [|discriminate].
      destruct (arbitrary_u64 u2) as [[amt u3]|] eqn:E2; cbn [bind] in H; [|discriminate].
      injection H as <- <-. simpl. unfold EveProof_wf. simpl.
      rewrite (H32 _ _ _ E1). pose proof (H64 _ _ _ E2). simpl.
      unfold in_range. simpl. apply andb_true_iff; split; apply Z.leb_le || apply Z.ltb_lt; lia.
    - destruct (arbitrary_bytes32 u1) as [[pci u2]|] eqn:E1; cbn [bind] in H; [|discriminate].
      destruct (arbitrary_bytes32 u2) as [[iph u3]|] eqn:E2; cbn [bind] in H; [|discriminate].
      destruct (arbitrary_u64 u3) as [[amt u4]|] eqn:E3; cbn [bind] in H; [|discriminate].
      injection H as <- <-. simpl. unfold LineageProof_wf. simpl.
      rewrite (H32 _ _ _ E1), (H32 _ _ _ E2). pose proof (H64 _ _ _ E3). simpl.
      unfold in_range. simpl. apply andb_true_iff; split; apply Z.leb_le || apply Z.ltb_lt; lia. }
  split.
  - intros p u' H. split; [exact (Hwf p u' H)|].
    destruct (Proof_roundtrip p (Hwf p u' H)) as [n [Hn Hd]].
    unfold roundtrip. rewrite H, Hn, Hd, Proof_eqb_refl. reflexivity.
  - intros e H. unfold roundtrip. rewrite H. reflexivity.
Qed.

Lemma proof_fuzz_roundtrip_witness :
  roundtrip Proof nat unit
    (Proof_arbitrary nat unit (fun _ _ u => Ok (Nat.even u, S u))
       (fun u => Ok (repeat Byte.x07 32, S u)) (fun u => Ok (2, S u)))
    Proof_to_clvm Proof_from_clvm Proof_eqb 0%nat = Some 3%nat.
Proof.
  apply (proj1 (proof_fuzz_roundtrip nat unit (fun _ _ u => Ok (Nat.even u, S u))
           (fun u => Ok (repeat Byte.x07 32, S u)) (fun u => Ok (2, S u))
           ltac:(intros u bs u' H; injection H as <- _; reflexivity)
           ltac:(intros u z u' H; injection H as <- _; lia) 0%nat)
           (Eve {| eve_parent_coin_info := repeat Byte.x07 32; eve_amount := 2 |}) 3%nat).
  reflexivity.
Defined.

Lemma decode_array_ok (k : nat) (n : node) (bs : list byte) :
  decode_array k n = Ok bs -> n = Atom bs /\ length bs = k.
Proof.
  unfold decode_array. destruct n as [bs'|]; cbn [atom_of bind]; [|discriminate].
  destruct (Nat.eqb (length bs') k) eqn:E; [|discriminate].
  intros H. injection H as <-. split; [reflexivity | apply Nat.eqb_eq, E].
Qed.

Lemma decode_int_ok (s : bool) (bits : nat) (n : node) (z : Z) :
  decode_int s bits n = Ok z -> in_range s bits z = true.
Proof.
  unfold decode_int. destruct n as [bs|]; cbn [atom_of bind]; [|discriminate].
  destruct (in_range s bits (int_of_bytes bs)) eqn:E; [|discriminate].
  intros H. injection H as <-. exact E.
Qed.

(** X6.  Every [Proof] that decoding returns has fields in their Rust types, and
    comes from a proper list: [Lineage] from a 3-element list of two 32-byte
    atoms and a node decoding to its amount, [Eve] from a 2-element list of a
    32-byte atom and a node decoding to its amount; an atom never decodes, it
    fails with [ExpectedPair]. *)
Theorem Proof_from_clvm_shape :
  (forall n p, Proof_from_clvm n = Ok p ->
     Proof_wf p = true /\
     match p with
     | Lineage l => exists c, n = list_frame [Atom (parent_coin_info l); Atom (inner_puzzle_hash l); c]
                              /\ decode_int false 64 c = Ok (amount l)
     | Eve e => exists c, n = list_frame [Atom (eve_parent_coin_info e); c]
                          /\ decode_int false 64 c = Ok (eve_amount e)
     end) /\
  (forall bs, Proof_from_clvm (Atom bs) = Err ExpectedPair).
Proof.
  split; [|reflexivity].
  intros n p H. unfold Proof_from_clvm in H.
  destruct (LineageProof_from_clvm n) as [l|] eqn:Hl.
  - injection H as <-. unfold LineageProof_from_clvm in Hl.
    destruct n as [bs|a r1]; [discriminate|].
    destruct (decode_array 32 a) as [pci|] eqn:Ea; cbn [bind] in Hl; [|discriminate].
    destruct r1 as [bs|b r2]; [discriminate|].
    destruct (decode_array 32 b) as [iph|] eqn:Eb; cbn [bind] in Hl; [|discriminate].
    destruct r2 as [bs|c r3]; [discriminate|].
    destruct (decode_int false 64 c) as [amt|] eqn:Ec; cbn [bind] in Hl; [|discriminate].
    destruct r3 as [[|x bs]|]; cbn [is_nil] in Hl; try discriminate.
    injection Hl as <-.
    destruct (decode_array_ok _ _ _ Ea) as [-> La], (decode_array_ok _ _ _ Eb) as [-> Lb].
    split.
    + unfold Proof_wf, LineageProof_wf. cbn [parent_coin_info inner_puzzle_hash amount]. rewrite La, Lb, (decode_int_ok _ _ _ _ Ec). reflexivity.
    + exists c. split; [reflexivity | exact Ec].
  - destruct (EveProof_from_clvm n) as [ev|] eqn:He; [|discriminate].
    injection H as <-. unfold EveProof_from_clvm in He.
    destruct n as [bs|a r1]; [discriminate|].
    destruct (decode_array 32 a) as [pci|] eqn:Ea; cbn [bind] in He; [|discriminate].
    destruct r1 as [bs|c r2]; [discriminate|].
    destruct (decode_int false 64 c) as [amt|] eqn:Ec; cbn [bind] in He; [|discriminate].
    destruct r2 as [[|x bs]|]; cbn [is_nil] in He; try discriminate.
    injection He as <-.
    destruct (decode_array_ok _ _ _ Ea) as [-> La].
    split.
    + unfold Proof_wf, EveProof_wf. cbn [eve_parent_coin_info eve_amount]. rewrite La, (decode_int_ok _ _ _ _ Ec). reflexivity.
    + exists c. split; [reflexivity | exact Ec].
Qed.
